(** * lighterwallets: position tracking, diffing and P&L analytics

    A shallow embedding of the reconciliation-and-analytics core of the
    wallet-tracking bot (the most complete bot variant of the repository):

    - [checkRateLimit]      the per-user sliding-window rate gate,
    - [fetchWithRetry], [fetchPositions]   the fetch layer, as a function of
      what the upstream transport answers,
    - [comparePositions]    the snapshot diff,
    - [updateWalletPnL], [getWalletPnLStats]   the P&L aggregator and its
      statistics reader,
    - [monitorAddress]      one address's step of the periodic monitor.

    JavaScript numbers are IEEE-754 binary64 values and are modelled by the
    kernel's primitive floats, so that [NaN], the infinities, signed zeros
    and rounding behave as they do in the program.  Clock readings
    ([Date.now()]) are integers and are modelled in [Z].  Objects used as
    dictionaries whose key order is observable (the [positions] of a
    snapshot) are association lists in [Object.keys] order; the dictionaries
    whose order is never observed (the per-address stores, the rate-limit
    [Map]) are [gmap]s. *)

From Stdlib Require Import ZArith Floats String List Lia Bool.
From Stdlib Require Uint63.
From stdpp Require Import gmap strings list.

Local Open Scope Z_scope.

(** ** JavaScript number operations *)

Module JS.

(** [ToBoolean] of a number: [+0], [-0] and [NaN] are falsy. *)
Definition truthy (x : float) : bool :=
  negb (PrimFloat.is_zero x) && negb (PrimFloat.is_nan x).

(** [x || y] on numbers. *)
Definition or_num (x y : float) : float :=
  if truthy x then x else y.

(** [x || y] where [x] may be [null]. *)
Definition or_null (x : option float) (y : float) : float :=
  match x with
  | Some v => or_num v y
  | None => y
  end.

(** [x !== y] on numbers. *)
Definition strict_neq (x y : float) : bool := negb (x =? y)%float.

(** [x > y]: the language evaluates it as [y < x]. *)
Definition gt (x y : float) : bool := (y <? x)%float.

(** An integer clock reading or difference of readings, as a number. *)
Definition of_Z (z : Z) : float :=
  match z with
  | Z0 => 0%float
  | Zpos _ => of_uint63 (Uint63.of_Z z)
  | Zneg p => (- of_uint63 (Uint63.of_Z (Zpos p)))%float
  end.

(** [arr.slice(-n)]: the last [n] elements. *)
Definition slice_last {A} (n : nat) (l : list A) : list A :=
  drop (length l - n)%nat l.

End JS.

(** ** Configuration *)

Record Config := {
  MAX_ADDRESSES_PER_USER : nat;
  RETRY_ATTEMPTS : nat;
  RATE_LIMIT_PER_USER : nat
}.

Definition CONFIG : Config := {|
  MAX_ADDRESSES_PER_USER := 5;
  RETRY_ATTEMPTS := 3;
  RATE_LIMIT_PER_USER := 30
|}.

(** ** Rate gate *)

(** A limit is a number or [Infinity] (here [None]). *)
Record UserLimits := {
  maxAddresses : option nat;
  rateLimit : option nat
}.

Definition isWhitelisted (whitelist : list Z) (userId : Z) : bool :=
  bool_decide (userId ∈ whitelist).

Definition getUserLimits (cfg : Config) (whitelist : list Z) (userId : Z)
  : UserLimits :=
  if isWhitelisted whitelist userId
  then {| maxAddresses := None; rateLimit := None |}
  else {| maxAddresses := Some (MAX_ADDRESSES_PER_USER cfg);
          rateLimit := Some (RATE_LIMIT_PER_USER cfg) |}.

Record RateEntry := {
  requests : list Z;
  blocked : bool
}.

(** [time => now - time < 60000] *)
Definition recent (now time : Z) : bool := now - time <? 60000.

(** The function returns the verdict; the second component is the
    [rateLimits] map afterwards.  On rejection the entry object is mutated
    in place (pruned, [blocked] set), which is visible in the map only when
    the object came from the map; a fresh object is dropped. *)
Definition checkRateLimit (cfg : Config) (whitelist : list Z) (now : Z)
    (userId : Z) (rateLimits : gmap Z RateEntry) : bool * gmap Z RateEntry :=
  match rateLimit (getUserLimits cfg whitelist userId) with
  | None => (true, rateLimits)
  | Some limit =>
      let stored := rateLimits !! userId in
      let userLimits :=
        default {| requests := []; blocked := false |} stored in
      let reqs := List.filter (recent now) (requests userLimits) in
      if (limit <=? length reqs)%nat
      then (false,
            match stored with
            | Some _ => <[userId := {| requests := reqs; blocked := true |}]> rateLimits
            | None => rateLimits
            end)
      else (true,
            <[userId := {| requests := reqs ++ [now]; blocked := false |}]> rateLimits)
  end.

(** The timestamps held for a user. *)
Definition window (rateLimits : gmap Z RateEntry) (userId : Z) : list Z :=
  match rateLimits !! userId with
  | Some e => requests e
  | None => []
  end.

(** A sequence of calls [(userId, now)], in order; the verdicts are
    returned with the final map. *)
Fixpoint runCalls (cfg : Config) (whitelist : list Z) (calls : list (Z * Z))
    (rateLimits : gmap Z RateEntry) : list bool * gmap Z RateEntry :=
  match calls with
  | [] => ([], rateLimits)
  | (userId, now) :: rest =>
      let '(ok, rl1) := checkRateLimit cfg whitelist now userId rateLimits in
      let '(oks, rl2) := runCalls cfg whitelist rest rl1 in
      (ok :: oks, rl2)
  end.

(** The clock readings of the calls of [userId] that were admitted. *)
Fixpoint admittedTimes (userId : Z) (calls : list (Z * Z)) (verdicts : list bool)
  : list Z :=
  match calls, verdicts with
  | (u, now) :: cs, ok :: vs =>
      if bool_decide (u = userId) && ok
      then now :: admittedTimes userId cs vs
      else admittedTimes userId cs vs
  | _, _ => []
  end.

(** Clock readings never go backwards along the sequence of calls. *)
Fixpoint clockMonotone (from : Z) (calls : list (Z * Z)) : Prop :=
  match calls with
  | [] => True
  | (_, now) :: rest => from <= now /\ clockMonotone now rest
  end.

(** Membership of a reading in the rolling window that ends at [T]. *)
Definition inWindow (T t : Z) : bool := (T - 60000 <? t) && (t <=? T).

(** Every later reading of the list is less than 60 s after every earlier
    one. *)
Fixpoint within60 (ts : list Z) : Prop :=
  match ts with
  | [] => True
  | a :: rest => Forall (fun b => b - a < 60000) rest /\ within60 rest
  end.

(** What the timestamps stored for [userId] and the readings [pre] of its
    admitted calls have in common at a clock reading [from], and what is
    known of [pre]: the invariant of a run of calls. *)
Definition gateInv (limit : nat) (userId : Z) (from : Z)
    (rl : gmap Z RateEntry) (pre : list Z) : Prop :=
  (forall now, from <= now ->
     List.filter (recent now) (window rl userId) = List.filter (recent now) pre)
  /\ Forall (fun t => t <= from) pre
  /\ (forall T, (length (List.filter (inWindow T) pre) <= limit)%nat).

(** ** Data model *)

(** A position as [fetchPositions] builds it.  [position] is the absolute
    size; [mark_price] is [null] when no candle was available. *)
Record Position := {
  symbol : string;
  position : float;
  avg_entry_price : float;
  sign : Z;
  open_order_count : Z;
  unrealized_pnl : float;
  position_value : float;
  mark_price : option float;
  market_id : Z
}.

(** A JavaScript object used as a dictionary from symbols to positions: its
    own properties, in [Object.keys] order.  The keys are market symbols.
    The object is a plain [{}], so reading it at a name that
    [Object.prototype] defines, without an own property of that name, gives
    the inherited member and not [undefined]; [obj_get] below is the read of
    an own property, and the statements that read a symbol which one of the
    two snapshots may not hold are made for snapshots whose keys are none
    of these names ([plainKeys]). *)
Definition PositionMap := list (string * Position).

Record Snapshot := {
  balance : float;
  positions : PositionMap
}.

(** [obj[key]], for an own property. *)
Fixpoint obj_get (obj : PositionMap) (key : string) : option Position :=
  match obj with
  | [] => None
  | (k, v) :: rest => if String.eqb k key then Some v else obj_get rest key
  end.

(** [obj[key] = v] for a key that is a market symbol: an existing key keeps
    its place, a new key goes last.  (An integer-like key would be listed
    before the others, and [__proto__] would set the prototype and create no
    key.) *)
Fixpoint obj_set (obj : PositionMap) (key : string) (v : Position) : PositionMap :=
  match obj with
  | [] => [(key, v)]
  | (k, w) :: rest =>
      if String.eqb k key then (k, v) :: rest else (k, w) :: obj_set rest key v
  end.

Definition obj_keys (obj : PositionMap) : list string := map fst obj.
Definition obj_values (obj : PositionMap) : list Position := map snd obj.

(** [new Set(list)] iterated: the first occurrence of each element, in
    order. *)
Fixpoint set_of (l : list string) : list string :=
  match l with
  | [] => []
  | x :: rest => x :: List.filter (fun y => negb (String.eqb y x)) (set_of rest)
  end.

(** [new Set([...Object.keys(oldPositions), ...Object.keys(newPositions)])] *)
Definition allSymbols (oldPositions newPositions : PositionMap) : list string :=
  set_of (obj_keys oldPositions ++ obj_keys newPositions).

(** The state that stands for "no data". *)
Definition emptyState : Snapshot := {| balance := 0%float; positions := [] |}.

(** ** Fetch layer *)

(** [fetchWithRetry]: [cached] is a cache entry for the URL that has not
    expired, [transport k] is what the [k]-th upstream call answers
    ([None]: network error, timeout or a non-2xx status).  [None] as a
    result stands for the exception thrown after the last retry. *)
Fixpoint fetchAttempts {A} (transport : nat -> option A) (retries k : nat)
  : option A :=
  match transport k with
  | Some data => Some data
  | None =>
      match retries with
      | O => None
      | S r => fetchAttempts transport r (S k)
      end
  end.

Definition fetchWithRetry {A} (cfg : Config) (cached : option A)
    (transport : nat -> option A) : option A :=
  match cached with
  | Some data => Some data
  | None => fetchAttempts transport (RETRY_ATTEMPTS cfg) 0
  end.

(** The account JSON, with the numeric strings already read by
    [parseFloat]. *)
Record RawPosition := {
  raw_symbol : string;
  raw_position : float;
  raw_avg_entry_price : float;
  raw_sign : Z;
  raw_open_order_count : Z;
  raw_unrealized_pnl : float;
  raw_position_value : float;
  raw_market_id : Z
}.

Record RawAccount := {
  collateral : float;
  acc_positions : option (list RawPosition)
}.

Record AccountJson := {
  accounts : list RawAccount
}.

Definition buildPosition (markPrice : Z -> option float) (pos : RawPosition)
  : Position := {|
  symbol := raw_symbol pos;
  position := abs (raw_position pos);
  avg_entry_price := raw_avg_entry_price pos;
  sign := raw_sign pos;
  open_order_count := raw_open_order_count pos;
  unrealized_pnl := raw_unrealized_pnl pos;
  position_value := raw_position_value pos;
  mark_price := markPrice (raw_market_id pos);
  market_id := raw_market_id pos
|}.

(** [fetchPositions]: [address] is the result of [safeToChecksumAddress],
    [response] the result of [fetchWithRetry] on the account URL and
    [markPrice] what [fetchMarkPrice] resolves to for a market (it never
    rejects).  Every failure path returns the same literal,
    [{ balance: 0, positions: {} }]. *)
Definition fetchPositions (address : option string)
    (response : option AccountJson) (markPrice : Z -> option float)
  : Snapshot :=
  match address with
  | None => emptyState
  | Some _ =>
      match response with
      | None => emptyState
      | Some json =>
          match accounts json with
          | [] => emptyState
          | acc :: _ =>
              match acc_positions acc with
              | None => emptyState
              | Some raws =>
                  let nonzero :=
                    List.filter
                      (fun pos => JS.strict_neq (raw_position pos) 0%float) raws in
                  let built := map (buildPosition markPrice) nonzero in
                  {| balance := collateral acc;
                     positions :=
                       fold_left (fun obj v => obj_set obj (symbol v) v) built [] |}
              end
          end
      end
  end.

(** ** Diff *)

(** One entry of the array that [comparePositions] returns.  The entry is a
    message string in the program; the model keeps what the message is
    rendered from: the symbol, the title line and the positions shown. *)
Record Change := {
  ch_symbol : string;
  ch_title : string;
  ch_before : option Position;
  ch_after : option Position
}.

(** The title chosen by the [switch] of [formatPositionUpdate]. *)
Definition updateTitle (action : string) : string :=
  if String.eqb action "opened" then "POSITION OPENED"
  else if String.eqb action "closed" then "POSITION CLOSED"
  else if String.eqb action "increased" then "POSITION INCREASED"
  else if String.eqb action "reduced" then "POSITION REDUCED"
  else "POSITION UPDATED".

Definition compareSymbol (oldPositions newPositions : PositionMap)
    (sym : string) : list Change :=
  match obj_get oldPositions sym, obj_get newPositions sym with
  | None, Some n =>
      [ {| ch_symbol := sym; ch_title := updateTitle "opened";
           ch_before := None; ch_after := Some n |} ]
  | Some o, None =>
      [ {| ch_symbol := sym; ch_title := "POSITION CLOSED";
           ch_before := Some o; ch_after := None |} ]
  | Some o, Some n =>
      if JS.strict_neq (position o) (position n)
         || JS.strict_neq (avg_entry_price o) (avg_entry_price n)
      then
        let action :=
          if JS.gt (position n) (position o) then "increased" else "reduced" in
        [ {| ch_symbol := sym; ch_title := updateTitle action;
             ch_before := Some o; ch_after := Some n |} ]
      else []
  | None, None => []
  end.

(** [comparePositions], for snapshots whose two reads of a symbol are own
    properties or [undefined] ([plainKeys] below); a read that returned an
    inherited member would be taken for a position, and rendering it
    throws. *)
Definition comparePositions (oldPos newPos : Snapshot) : list Change :=
  flat_map (compareSymbol (positions oldPos) (positions newPos))
           (allSymbols (positions oldPos) (positions newPos)).

(** Whether the diff has an entry for a symbol. *)
Definition changed (oldPositions newPositions : PositionMap) (sym : string)
  : bool :=
  match compareSymbol oldPositions newPositions sym with
  | [] => false
  | _ :: _ => true
  end.


(** ** P&L aggregator *)

Inductive TradeSide := LONG | SHORT.

Inductive TradeType := Open | Increase | PartialClose | Close.

Record Trade := {
  t_symbol : string;
  t_side : TradeSide;
  t_size : float;
  t_entryPrice : float;
  t_exitPrice : option float;
  t_pnl : float;
  t_timestamp : Z;
  t_type : TradeType
}.

Record BalanceRecord := {
  b_balance : float;
  b_timestamp : Z
}.

Record WalletPnL := {
  totalPnL : float;
  realizedPnL : float;
  unrealizedPnL : float;
  trades : nat;
  startTime : Z;
  initialBalance : float;
  lastBalance : float;
  tradeHistory : list Trade;
  balanceHistory : list BalanceRecord
}.

Definition TradeType_eqb (a b : TradeType) : bool :=
  match a, b with
  | Open, Open | Increase, Increase | PartialClose, PartialClose
  | Close, Close => true
  | _, _ => false
  end.

Definition TradeSide_eqb (a b : TradeSide) : bool :=
  match a, b with
  | LONG, LONG | SHORT, SHORT => true
  | _, _ => false
  end.

(** [sign === 1 ? 'LONG' : 'SHORT'] *)
Definition sideOf (sign : Z) : TradeSide :=
  if sign =? 1 then LONG else SHORT.

Definition newWalletPnL (now : Z) (initial : float) : WalletPnL := {|
  totalPnL := 0%float;
  realizedPnL := 0%float;
  unrealizedPnL := 0%float;
  trades := 0%nat;
  startTime := now;
  initialBalance := initial;
  lastBalance := initial;
  tradeHistory := [];
  balanceHistory := [ {| b_balance := initial; b_timestamp := now |} ]
|}.

(** [initializeWalletPnL]: creates the entry only when there is none. *)
Definition initializeWalletPnL (now : Z) (address : string) (initial : float)
    (walletPnL : gmap string WalletPnL) : gmap string WalletPnL :=
  match walletPnL !! address with
  | Some _ => walletPnL
  | None => <[address := newWalletPnL now initial]> walletPnL
  end.

(** [tradeHistory.push(trade)] *)
Definition pushTrade (w : WalletPnL) (trade : Trade) : WalletPnL := {|
  totalPnL := totalPnL w;
  realizedPnL := realizedPnL w;
  unrealizedPnL := unrealizedPnL w;
  trades := trades w;
  startTime := startTime w;
  initialBalance := initialBalance w;
  lastBalance := lastBalance w;
  tradeHistory := tradeHistory w ++ [trade];
  balanceHistory := balanceHistory w
|}.

(** [tradeHistory.push(trade); realizedPnL += trade.pnl; trades++] *)
Definition realizeTrade (w : WalletPnL) (trade : Trade) : WalletPnL := {|
  totalPnL := totalPnL w;
  realizedPnL := (realizedPnL w + t_pnl trade)%float;
  unrealizedPnL := unrealizedPnL w;
  trades := S (trades w);
  startTime := startTime w;
  initialBalance := initialBalance w;
  lastBalance := lastBalance w;
  tradeHistory := tradeHistory w ++ [trade];
  balanceHistory := balanceHistory w
|}.

Definition closeTrade (now : Z) (sym : string) (oldP : Position) : Trade := {|
  t_symbol := sym;
  t_side := sideOf (sign oldP);
  t_size := position oldP;
  t_entryPrice := avg_entry_price oldP;
  t_exitPrice := Some (JS.or_null (mark_price oldP) (avg_entry_price oldP));
  t_pnl := JS.or_num (unrealized_pnl oldP) 0%float;
  t_timestamp := now;
  t_type := Close
|}.

Definition openTrade (now : Z) (sym : string) (newP : Position) : Trade := {|
  t_symbol := sym;
  t_side := sideOf (sign newP);
  t_size := position newP;
  t_entryPrice := avg_entry_price newP;
  t_exitPrice := None;
  t_pnl := 0%float;
  t_timestamp := now;
  t_type := Open
|}.

(** [Math.abs(newPos.position - oldPos.position)] *)
Definition sizeDiff (oldP newP : Position) : float :=
  abs (position newP - position oldP)%float.

Definition increaseTrade (now : Z) (sym : string) (oldP newP : Position)
  : Trade := {|
  t_symbol := sym;
  t_side := sideOf (sign newP);
  t_size := sizeDiff oldP newP;
  t_entryPrice := avg_entry_price newP;
  t_exitPrice := None;
  t_pnl := 0%float;
  t_timestamp := now;
  t_type := Increase
|}.

Definition partialCloseTrade (now : Z) (sym : string) (oldP newP : Position)
  : Trade := {|
  t_symbol := sym;
  t_side := sideOf (sign oldP);
  t_size := sizeDiff oldP newP;
  t_entryPrice := avg_entry_price oldP;
  t_exitPrice := Some (JS.or_null (mark_price newP) (avg_entry_price oldP));
  t_pnl := (JS.or_num (unrealized_pnl oldP) 0%float
            * (sizeDiff oldP newP / position oldP))%float;
  t_timestamp := now;
  t_type := PartialClose
|}.

(** The body of [allSymbols.forEach] in [updateWalletPnL].  Its three [if]
    statements have mutually exclusive conditions on the presence of the
    two positions. *)
Definition tradeStep (now : Z) (oldPositions newPositions : PositionMap)
    (w : WalletPnL) (sym : string) : WalletPnL :=
  match obj_get oldPositions sym, obj_get newPositions sym with
  | Some oldP, None => realizeTrade w (closeTrade now sym oldP)
  | None, Some newP => pushTrade w (openTrade now sym newP)
  | Some oldP, Some newP =>
      if JS.strict_neq (position oldP) (position newP)
      then
        if JS.gt (position newP) (position oldP)
        then pushTrade w (increaseTrade now sym oldP newP)
        else realizeTrade w (partialCloseTrade now sym oldP newP)
      else w
  | None, None => w
  end.

(** [currentUnrealizedPnL]: the sum over [Object.values(newPositions)]. *)
Definition currentUnrealizedPnL (newPositions : PositionMap) : float :=
  fold_left (fun acc pos => (acc + JS.or_num (unrealized_pnl pos) 0%float)%float)
            (obj_values newPositions) 0%float.

(** The end of [updateWalletPnL]: the recomputed fields, the balance record
    and the two caps. *)
Definition settle (now : Z) (newState : Snapshot) (w : WalletPnL) : WalletPnL :=
  let unrealized := currentUnrealizedPnL (positions newState) in
  let newBalance := JS.or_num (balance newState) 0%float in
  let pushed :=
    balanceHistory w ++ [ {| b_balance := newBalance; b_timestamp := now |} ] in
  {| totalPnL := (realizedPnL w + unrealized)%float;
     realizedPnL := realizedPnL w;
     unrealizedPnL := unrealized;
     trades := trades w;
     startTime := startTime w;
     initialBalance := initialBalance w;
     lastBalance := newBalance;
     tradeHistory :=
       if (1000 <? length (tradeHistory w))%nat
       then JS.slice_last 1000 (tradeHistory w) else tradeHistory w;
     balanceHistory :=
       if (1000 <? length pushed)%nat
       then JS.slice_last 1000 pushed else pushed |}.

(** [updateWalletPnL] on the entry of the address. *)
Definition updateEntry (now : Z) (oldState newState : Snapshot) (w : WalletPnL)
  : WalletPnL :=
  settle now newState
    (fold_left (tradeStep now (positions oldState) (positions newState))
               (allSymbols (positions oldState) (positions newState)) w).

(** [updateWalletPnL(address, oldState, newState)] on the [walletPnL] store;
    all its clock readings are taken as one, [now]. *)
Definition updateWalletPnL (now : Z) (address : string)
    (oldState newState : Snapshot) (walletPnL : gmap string WalletPnL)
  : gmap string WalletPnL :=
  let store :=
    initializeWalletPnL now address (JS.or_num (balance newState) 0%float)
                        walletPnL in
  match store !! address with
  | Some w => <[address := updateEntry now oldState newState w]> store
  | None => store
  end.

(** The trade records that the loop of [updateWalletPnL] pushes: the trade
    history it builds from an entry whose history is empty. *)
Definition pushedTrades (now : Z) (oldState newState : Snapshot) : list Trade :=
  tradeHistory
    (fold_left (tradeStep now (positions oldState) (positions newState))
               (allSymbols (positions oldState) (positions newState))
               (newWalletPnL 0 0%float)).

(** The records of a list that are about [sym]. *)
Definition tradesOf (sym : string) (l : list Trade) : list Trade :=
  List.filter (fun t => String.eqb (t_symbol t) sym) l.

(** ** Statistics reader *)

(** [t.type === 'close' || t.type === 'partial_close'] *)
Definition isClosing (t : Trade) : bool :=
  TradeType_eqb (t_type t) Close || TradeType_eqb (t_type t) PartialClose.

Definition closedTrades (w : WalletPnL) : list Trade :=
  List.filter isClosing (tradeHistory w).

(** The value added to a balance record in the drawdown loop: the [pnl] of
    the trades up to the record that are not closing trades. *)
Definition markedPnL (w : WalletPnL) (record : BalanceRecord) : float :=
  fold_left (fun sum t => (sum + JS.or_num (t_pnl t) 0%float)%float)
    (List.filter
       (fun t => (t_timestamp t <=? b_timestamp record) && negb (isClosing t))
       (tradeHistory w))
    0%float.

Definition totalValue (w : WalletPnL) (record : BalanceRecord) : float :=
  (b_balance record + markedPnL w record)%float.

(** The three variables of the drawdown loop. *)
Record Drawdown := {
  maxDrawdown : float;
  peak : float;
  currentDrawdown : float
}.

Definition drawdownStep (w : WalletPnL) (d : Drawdown) (record : BalanceRecord)
  : Drawdown :=
  let value := totalValue w record in
  if JS.gt value (peak d)
  then {| maxDrawdown := maxDrawdown d; peak := value;
          currentDrawdown := 0%float |}
  else
    let current := ((peak d - value) / peak d * 100)%float in
    {| maxDrawdown :=
         if JS.gt current (maxDrawdown d) then current else maxDrawdown d;
       peak := peak d;
       currentDrawdown := current |}.

(** [maxDrawdown] as computed, before it is printed with [toFixed(2)]. *)
Definition maxDrawdownOf (w : WalletPnL) : float :=
  maxDrawdown
    (fold_left (drawdownStep w) (balanceHistory w)
       {| maxDrawdown := 0%float; peak := initialBalance w;
          currentDrawdown := 0%float |}).

(** The callback of [stats.tradeHistory.find] for a closing trade. *)
Definition opens (trade t : Trade) : bool :=
  String.eqb (t_symbol t) (t_symbol trade)
  && TradeSide_eqb (t_side t) (t_side trade)
  && TradeType_eqb (t_type t) Open
  && (t_timestamp t <? t_timestamp trade).

(** [Array.prototype.find]: the first element, in array order, that the
    callback accepts. *)
Definition findOpenTrade (w : WalletPnL) (trade : Trade) : option Trade :=
  List.find (opens trade) (tradeHistory w).

(** Hours between the opening trade found and the closing trade, [0] when
    none is found. *)
Definition holdTime (w : WalletPnL) (trade : Trade) : float :=
  match findOpenTrade w trade with
  | Some openTrade =>
      (JS.of_Z (t_timestamp trade - t_timestamp openTrade) / 3600000)%float
  | None => 0%float
  end.

Definition holdTimes (w : WalletPnL) : list float :=
  List.filter (fun time => JS.gt time 0%float)
              (map (holdTime w) (closedTrades w)).

(** [avgHoldTime] as computed, before it is printed with [toFixed(1)]. *)
Definition avgHoldTime (w : WalletPnL) : float :=
  match holdTimes w with
  | [] => 0%float
  | times =>
      (fold_left (fun sum time => (sum + time)%float) times 0%float
       / JS.of_Z (Z.of_nat (length times)))%float
  end.

(** The pairing that the specification describes for a closing trade: among
    the opening trades that [opens] accepts, one with the largest
    timestamp. *)
Definition mostRecentOpen (w : WalletPnL) (trade : Trade) : option Trade :=
  fold_left
    (fun best t =>
       if opens trade t
       then match best with
            | Some b => if t_timestamp b <? t_timestamp t then Some t else Some b
            | None => Some t
            end
       else best)
    (tradeHistory w) None.

(** ** Monitor *)

(** The two stores that the monitor mutates. *)
Record World := {
  previousStates : gmap string Snapshot;
  walletPnL : gmap string WalletPnL
}.

(** One address's callback of the monitor tick, after [fetchPositions] has
    answered [newState].  [dispatched] is [false] when rendering or candle
    retrieval throws inside the notification loop: the callback's promise
    is then rejected and its last assignment is not reached. *)
Definition monitorAddress (now : Z) (address : string) (newState : Snapshot)
    (dispatched : bool) (world : World) : World :=
  match previousStates world !! address with
  | None =>
      {| previousStates := <[address := newState]> (previousStates world);
         walletPnL := walletPnL world |}
  | Some oldState =>
      match comparePositions oldState newState with
      | [] =>
          {| previousStates := <[address := newState]> (previousStates world);
             walletPnL := walletPnL world |}
      | _ :: _ =>
          let pnl := updateWalletPnL now address oldState newState (walletPnL world) in
          {| previousStates :=
               if dispatched
               then <[address := newState]> (previousStates world)
               else previousStates world;
             walletPnL := pnl |}
      end
  end.

(** The callback with its fetch: the address is read through
    [safeToChecksumAddress] ([checksummed]), the account URL through
    [fetchWithRetry]. *)
Definition monitorCycle (cfg : Config) (now : Z) (address : string)
    (checksummed : option string) (cached : option AccountJson)
    (transport : nat -> option AccountJson) (markPrice : Z -> option float)
    (dispatched : bool) (world : World) : World :=
  monitorAddress now address
    (fetchPositions checksummed (fetchWithRetry cfg cached transport) markPrice)
    dispatched world.

(** A fetch that fails: the address is not valid, every upstream attempt of
    the retry budget fails with nothing in the cache, or the answer carries
    no account or an account without positions. *)
Definition fetchFails (cfg : Config) (checksummed : option string)
    (cached : option AccountJson) (transport : nat -> option AccountJson)
  : Prop :=
  checksummed = None
  \/ (cached = None
      /\ forall k, (k <= RETRY_ATTEMPTS cfg)%nat -> transport k = None)
  \/ (exists json,
         fetchWithRetry cfg cached transport = Some json
         /\ (accounts json = []
             \/ exists acc rest,
                  accounts json = acc :: rest /\ acc_positions acc = None)).

(** The entries that the program can hold for an address: created by
    [initializeWalletPnL], then changed by [updateWalletPnL]. *)
Inductive reachable : WalletPnL -> Prop :=
| reachable_new (now : Z) (initial : float) :
    reachable (newWalletPnL now initial)
| reachable_update (now : Z) (oldState newState : Snapshot) (w : WalletPnL) :
    reachable w -> reachable (updateEntry now oldState newState w).

(** The average holding time with the pairing of the specification
    ([mostRecentOpen]) in place of [findOpenTrade]. *)
Definition specHoldTime (w : WalletPnL) (trade : Trade) : float :=
  match mostRecentOpen w trade with
  | Some openTrade =>
      (JS.of_Z (t_timestamp trade - t_timestamp openTrade) / 3600000)%float
  | None => 0%float
  end.

Definition specAvgHoldTime (w : WalletPnL) : float :=
  match List.filter (fun time => JS.gt time 0%float)
                    (map (specHoldTime w) (closedTrades w)) with
  | [] => 0%float
  | times =>
      (fold_left (fun sum time => (sum + time)%float) times 0%float
       / JS.of_Z (Z.of_nat (length times)))%float
  end.

(** ** Scenarios of the specification *)

Module Scenario.

Definition mkPosition (sym : string) (size entry pnl : float) (sg : Z)
  : Position := {|
  symbol := sym;
  position := size;
  avg_entry_price := entry;
  sign := sg;
  open_order_count := 0;
  unrealized_pnl := pnl;
  position_value := (size * entry)%float;
  mark_price := None;
  market_id := 1
|}.

Definition btcLong : Position := mkPosition "BTC" 1 50000 200 1.
Definition ethLong10 : Position := mkPosition "ETH" 10 2000 100 1.
Definition ethLong6 : Position := mkPosition "ETH" 6 2000 60 1.
Definition ethLong10' : Position := mkPosition "ETH" 10 2100 100 1.

Definition flat : Snapshot :=
  {| balance := 1000%float; positions := [] |}.
Definition btcOpen : Snapshot :=
  {| balance := 1000%float; positions := [("BTC", btcLong)] |}.
Definition eth10 : Snapshot :=
  {| balance := 1000%float; positions := [("ETH", ethLong10)] |}.
Definition eth6 : Snapshot :=
  {| balance := 1000%float; positions := [("ETH", ethLong6)] |}.
Definition eth10' : Snapshot :=
  {| balance := 1000%float; positions := [("ETH", ethLong10')] |}.

(** Two positions opened at once, in two key orders. *)
Definition ethBtc : Snapshot :=
  {| balance := 1000%float;
     positions := [("ETH", ethLong10); ("BTC", btcLong)] |}.

(** One tracked address with an open BTC position and a fresh P&L entry. *)
Definition wallet : string := "0x52908400098527886E0F7030069857D2E4169EE7".

Definition tracking (state : Snapshot) : World := {|
  previousStates := {[ wallet := state ]};
  walletPnL := {[ wallet := newWalletPnL 0 1000%float ]}
|}.

(** The same long BTC position opened at 1 h, closed at 2 h, opened again at
    10 h and closed at 11 h. *)
Definition roundTrips : WalletPnL :=
  updateEntry 39600000 btcOpen flat
    (updateEntry 36000000 flat btcOpen
       (updateEntry 7200000 btcOpen flat
          (updateEntry 3600000 flat btcOpen (newWalletPnL 0 1000%float)))).

(** An address added while its fetch failed (balance 0), then seen with a
    negative collateral and a position. *)
Definition underwater : Snapshot :=
  {| balance := (-5)%float; positions := [("ETH", ethLong10)] |}.

Definition sunk : WalletPnL :=
  updateEntry 15000 emptyState underwater (newWalletPnL 0 0%float).

End Scenario.

(** ** Names that a plain object inherits *)

(** The property names of [Object.prototype]. *)
Definition objectPrototypeNames : list string :=
  [ "constructor"; "__proto__"; "hasOwnProperty"; "isPrototypeOf";
    "propertyIsEnumerable"; "toLocaleString"; "toString"; "valueOf";
    "__defineGetter__"; "__defineSetter__"; "__lookupGetter__";
    "__lookupSetter__" ].

(** Whether [({})[key]] is an inherited member. *)
Definition inherited (key : string) : bool :=
  existsb (String.eqb key) objectPrototypeNames.

(** An object none of whose keys reads an inherited member in another
    object. *)
Definition plainKeys (obj : PositionMap) : Prop :=
  Forall (fun key => inherited key = false) (obj_keys obj).

(** Whether two reads of a symbol differ for the diff: held on one side
    only, or held on both with another size or entry price. *)
Definition differs (oldPos newPos : option Position) : bool :=
  match oldPos, newPos with
  | Some o, Some n =>
      JS.strict_neq (position o) (position n)
      || JS.strict_neq (avg_entry_price o) (avg_entry_price n)
  | Some _, None | None, Some _ => true
  | None, None => false
  end.

(** What one pushed record does to [realizedPnL]: a closing record adds its
    [pnl], any other record nothing. *)
Definition realize (realized : float) (t : Trade) : float :=
  if isClosing t then (realized + t_pnl t)%float else realized.

(** ** Chart markers *)

Inductive Marker := buy | sell.




(** ** More of the statistics reader *)

(** [closedTrades.filter(t => t.pnl > 0)] *)
Definition winningTrades (w : WalletPnL) : list Trade :=
  List.filter (fun t => JS.gt (t_pnl t) 0%float) (closedTrades w).

(** [closedTrades.filter(t => t.pnl < 0)] *)
Definition losingTrades (w : WalletPnL) : list Trade :=
  List.filter (fun t => (t_pnl t <? 0)%float) (closedTrades w).

(** The positions of an object whose size and entry price are numbers. *)
Definition numeric (obj : PositionMap) : Prop :=
  Forall (fun kv => PrimFloat.is_nan (position (snd kv)) = false
                    /\ PrimFloat.is_nan (avg_entry_price (snd kv)) = false)
         obj.

(** ** Trade event ledger *)

(** A chart marker: [time] in seconds, the entry price and the side. *)
Record TradeEvent := {
  ev_time : float;
  ev_price : float;
  ev_side : Marker
}.

(** [e => now - e.time < 86400], [now] being [Date.now() / 1000]. *)
Definition fresh (nowSec : float) (e : TradeEvent) : bool :=
  (nowSec - ev_time e <? 86400)%float.

(** [getWalletEvents]: what [tradeEventsByWallet[address][symbol]] is
    after the missing levels have been created.  A wallet object is a plain
    [{}]: read at a symbol that is a name of [Object.prototype] it gives the
    inherited member, which is truthy, so that no array is created and the
    member is returned ([None] here).  The address is a key of the
    watchlist, a checksummed address. *)
Definition getWalletEvents (address symbol : string)
    (store : gmap string (gmap string (list TradeEvent)))
  : option (list TradeEvent) * gmap string (gmap string (list TradeEvent)) :=
  let store1 :=
    match store !! address with
    | Some _ => store
    | None => <[address := ∅]> store
    end in
  let wallet := default ∅ (store1 !! address) in
  match wallet !! symbol with
  | Some events => (Some events, store1)
  | None =>
      if inherited symbol then (None, store1)
      else (Some [], <[address := <[symbol := []]> wallet]> store1)
  end.

(** [addTradeEvent]: the event is pushed, then the array is replaced by its
    events younger than 24 h.  The first component is [false] when
    [events.push] throws, [events] being an inherited member; the store is
    then as [getWalletEvents] left it. *)
Definition addTradeEvent (nowSec : float) (address symbol : string)
    (event : TradeEvent) (store : gmap string (gmap string (list TradeEvent)))
  : bool * gmap string (gmap string (list TradeEvent)) :=
  match getWalletEvents address symbol store with
  | (Some events, store1) =>
      let wallet := default ∅ (store1 !! address) in
      (true,
       <[address := <[symbol := List.filter (fresh nowSec) (events ++ [event])]> wallet]>
         store1)
  | (None, store1) => (false, store1)
  end.

(** [cleanupWalletEvents] *)
Definition cleanupWalletEvents (address : string)
    (store : gmap string (gmap string (list TradeEvent)))
  : gmap string (gmap string (list TradeEvent)) :=
  delete address store.

(** The hourly cleanup, for one wallet: old events go, then empty arrays. *)
Definition pruneWallet (nowSec : float) (wallet : gmap string (list TradeEvent))
  : gmap string (list TradeEvent) :=
  omap (fun events =>
          match List.filter (fresh nowSec) events with
          | [] => None
          | kept => Some kept
          end)
       wallet.

(** The hourly cleanup: every wallet is pruned, then empty wallets go. *)
Definition pruneEvents (nowSec : float)
    (store : gmap string (gmap string (list TradeEvent)))
  : gmap string (gmap string (list TradeEvent)) :=
  omap (fun wallet =>
          let kept := pruneWallet nowSec wallet in
          if decide (kept = ∅) then None else Some kept)
       store.

(** The events held for a wallet and symbol, read without creating
    anything. *)
Definition eventsOf (store : gmap string (gmap string (list TradeEvent)))
    (address symbol : string) : list TradeEvent :=
  default [] (store !! address ≫= fun wallet => wallet !! symbol).

(** ** Watchlist commands *)

(** A JavaScript object with string keys, in key order. *)
Fixpoint prop_get {V} (obj : list (string * V)) (key : string) : option V :=
  match obj with
  | [] => None
  | (k, v) :: rest => if String.eqb k key then Some v else prop_get rest key
  end.

Fixpoint prop_set {V} (obj : list (string * V)) (key : string) (v : V)
  : list (string * V) :=
  match obj with
  | [] => [(key, v)]
  | (k, w) :: rest =>
      if String.eqb k key then (k, v) :: rest else (k, w) :: prop_set rest key v
  end.

(** [delete obj[key]] *)
Definition prop_delete {V} (obj : list (string * V)) (key : string)
  : list (string * V) :=
  List.filter (fun kv => negb (String.eqb (fst kv) key)) obj.

(** The addresses of one user with their labels; a label is a string or
    [null]. *)
Definition Labels := list (string * option string).

(** Truthiness of [userAddresses[address]]: a label that is neither missing,
    [null] nor empty. *)
Definition labelled (labels : Labels) (address : string) : bool :=
  match prop_get labels address with
  | Some (Some lbl) => negb (String.eqb lbl "")
  | _ => false
  end.

Record Bot := {
  bot_watchlist : gmap Z Labels;
  bot_world : World;
  bot_events : gmap string (gmap string (list TradeEvent))
}.

Inductive AddReply :=
| AddUsage | AddInvalid | AddLimit | AddDuplicate | Added (address : string).

(** The [add] command.  [input] is the text after the command split at
    spaces, [checksum] is [safeToChecksumAddress] and [initialState] what
    [fetchPositions] answers for the address. *)
Definition addCommand (cfg : Config) (whitelist : list Z)
    (checksum : string -> option string) (now : Z) (userId : Z)
    (input : list string) (initialState : Snapshot) (bot : Bot)
  : AddReply * Bot :=
  match input with
  | [] => (AddUsage, bot)
  | first :: others =>
      match checksum first with
      | None => (AddInvalid, bot)
      | Some address =>
          let userAddresses := default [] (bot_watchlist bot !! userId) in
          let limits := getUserLimits cfg whitelist userId in
          let full :=
            match maxAddresses limits with
            | Some limit => (limit <=? length userAddresses)%nat
            | None => false
            end in
          if full then (AddLimit, bot)
          else if labelled userAddresses address then (AddDuplicate, bot)
          else
            let label :=
              match others with
              | lbl :: _ => if String.eqb lbl "" then None else Some lbl
              | [] => None
              end in
            (Added address,
             {| bot_watchlist :=
                  <[userId := prop_set userAddresses address label]>
                    (bot_watchlist bot);
                bot_world :=
                  {| previousStates :=
                       <[address := initialState]>
                         (previousStates (bot_world bot));
                     walletPnL :=
                       initializeWalletPnL now address (balance initialState)
                         (walletPnL (bot_world bot)) |};
                bot_events := bot_events bot |})
      end
  end.

Inductive DeleteReply :=
| DeleteUsage | DeleteNotFound | Removed (address : string).

(** [Object.values(watchlist).some(userAddr => userAddr[addr])] *)
Definition stillTracked (watchlist : gmap Z Labels) (address : string) : bool :=
  existsb (fun entry => labelled (snd entry) address) (map_to_list watchlist).

(** The [delete] command.  [input] is the second word of the message, empty
    when there is none. *)
Definition deleteCommand (userId : Z) (input : string) (bot : Bot)
  : DeleteReply * Bot :=
  if String.eqb input "" then (DeleteUsage, bot)
  else
    let userAddresses := default [] (bot_watchlist bot !! userId) in
    match List.find
            (fun entry =>
               match snd entry with
               | Some lbl => String.eqb lbl input
               | None => false
               end || String.eqb (fst entry) input)
            userAddresses with
    | None => (DeleteNotFound, bot)
    | Some (addr, _) =>
        let watchlist :=
          <[userId := prop_delete userAddresses addr]> (bot_watchlist bot) in
        if stillTracked watchlist addr
        then (Removed addr,
              {| bot_watchlist := watchlist;
                 bot_world := bot_world bot;
                 bot_events := bot_events bot |})
        else (Removed addr,
              {| bot_watchlist := watchlist;
                 bot_world :=
                   {| previousStates := delete addr (previousStates (bot_world bot));
                      walletPnL := delete addr (walletPnL (bot_world bot)) |};
                 bot_events := cleanupWalletEvents addr (bot_events bot) |})
    end.

(** ** Who watches what *)

(** [addressToUsers.get(addr).push(user)], the key being created with an
    empty array when the [Map] does not have it. *)
Fixpoint pushWatcher (m : list (string * list (Z * string))) (addr : string)
    (user : Z * string) : list (string * list (Z * string)) :=
  match m with
  | [] => [(addr, [user])]
  | (k, users) :: rest =>
      if String.eqb k addr then (k, users ++ [user]) :: rest
      else (k, users) :: pushWatcher rest addr user
  end.

(** [addrs[addr] || 'Wallet'] *)
Definition labelOrWallet (labels : Labels) (addr : string) : string :=
  match prop_get labels addr with
  | Some (Some lbl) => if String.eqb lbl "" then "Wallet" else lbl
  | _ => "Wallet"
  end.

(** The [Map] that the monitor builds from [Object.entries(watchlist)]: for
    every address, the users that watch it with their labels. *)
Definition addressToUsers (entries : list (Z * Labels))
  : list (string * list (Z * string)) :=
  fold_left
    (fun m entry =>
       fold_left
         (fun m addr =>
            pushWatcher m addr (fst entry, labelOrWallet (snd entry) addr))
         (map fst (snd entry)) m)
    entries [].

(** The pairs of a user and an address that the watchlist holds. *)
Definition watchPairs (entries : list (Z * Labels)) : list (Z * string) :=
  flat_map (fun entry => map (fun addr => (fst entry, addr)) (map fst (snd entry)))
           entries.

(** A user listed under an address of the monitor's map. *)
Definition watches (m : list (string * list (Z * string))) (addr : string)
    (user : Z * string) : Prop :=
  exists users, In (addr, users) m /\ In user users.

(** ** More scenarios *)

Module Example.

(** An upstream that fails twice and then answers. *)
Definition flaky (answer : AccountJson) (k : nat) : option AccountJson :=
  match k with
  | 0%nat | 1%nat => None
  | _ => Some answer
  end.

Definition rawPosition (sym : string) (size : float) (sg : Z) : RawPosition := {|
  raw_symbol := sym;
  raw_position := size;
  raw_avg_entry_price := 2000%float;
  raw_sign := sg;
  raw_open_order_count := 0;
  raw_unrealized_pnl := 10%float;
  raw_position_value := 100%float;
  raw_market_id := 1
|}.

(** An account with a short ETH position, a flat BTC entry and a second ETH
    entry. *)
Definition account : AccountJson := {|
  accounts :=
    [ {| collateral := 500%float;
         acc_positions :=
           Some [ rawPosition "ETH" (-3)%float (-1);
                  rawPosition "BTC" 0%float 1;
                  rawPosition "ETH" (-4)%float (-1) ] |} ]
|}.

End Example.

(** * Properties *)

(** ** Lists *)

Lemma filter_length_le {A} (P Q : A -> bool) (l : list A) :
  (forall x, In x l -> P x = true -> Q x = true) ->
  (length (List.filter P l) <= length (List.filter Q l))%nat.
Proof.
  induction l as [|a l IH]; intros HPQ; simpl; [lia|].
  assert (IH' := IH (fun x Hx => HPQ x (or_intror Hx))).
  destruct (P a) eqn:HP.
  - rewrite (HPQ a (or_introl eq_refl) HP). simpl. lia.
  - destruct (Q a); simpl; lia.
Qed.

Lemma filter_filter_weaker {A} (P Q : A -> bool) (l : list A) :
  (forall x, P x = true -> Q x = true) ->
  List.filter P (List.filter Q l) = List.filter P l.
Proof.
  intros HPQ. induction l as [|a l IH]; simpl; [reflexivity|].
  destruct (Q a) eqn:HQ; simpl.
  - rewrite IH. reflexivity.
  - destruct (P a) eqn:HP; [|exact IH].
    rewrite (HPQ a HP) in HQ. discriminate.
Qed.

(** ** Rate gate *)

Section RateGate.

Variable cfg : Config.
Variable whitelist : list Z.
Variable userId : Z.
Hypothesis unprivileged : isWhitelisted whitelist userId = false.

Abbreviation limit := (RATE_LIMIT_PER_USER cfg).

Lemma recent_later (now now' t : Z) :
  now <= now' -> recent now' t = true -> recent now t = true.
Proof. unfold recent. intros H H'. apply Z.ltb_lt in H'. apply Z.ltb_lt. lia. Qed.

Lemma check_verdict (now : Z) (rl : gmap Z RateEntry) :
  fst (checkRateLimit cfg whitelist now userId rl)
  = (length (List.filter (recent now) (window rl userId)) <? limit)%nat.
Proof.
  unfold checkRateLimit, getUserLimits, window. rewrite unprivileged. simpl.
  destruct (rl !! userId) as [e|]; simpl.
  - destruct (Nat.leb_spec limit (length (List.filter (recent now) (requests e))));
      simpl; symmetry; [apply Nat.ltb_ge | apply Nat.ltb_lt]; lia.
  - destruct (Nat.leb_spec limit 0); simpl; symmetry;
      [apply Nat.ltb_ge | apply Nat.ltb_lt]; lia.
Qed.

Lemma check_window (now : Z) (rl : gmap Z RateEntry) :
  window (snd (checkRateLimit cfg whitelist now userId rl)) userId
  = if fst (checkRateLimit cfg whitelist now userId rl)
    then List.filter (recent now) (window rl userId) ++ [now]
    else List.filter (recent now) (window rl userId).
Proof.
  unfold checkRateLimit, getUserLimits, window. rewrite unprivileged. simpl.
  destruct (rl !! userId) as [e|] eqn:He; simpl.
  - destruct (limit <=? _)%nat; simpl; rewrite lookup_insert_eq; reflexivity.
  - destruct (limit <=? 0)%nat; simpl.
    + rewrite He. reflexivity.
    + rewrite lookup_insert_eq. reflexivity.
Qed.

Lemma check_other (now other : Z) (rl : gmap Z RateEntry) :
  other <> userId ->
  window (snd (checkRateLimit cfg whitelist now other rl)) userId
  = window rl userId.
Proof.
  intros Hne. unfold checkRateLimit, window.
  destruct (rateLimit (getUserLimits cfg whitelist other)) as [lim|]; [|reflexivity].
  simpl. destruct (lim <=? _)%nat; simpl.
  - destruct (rl !! other); [|reflexivity].
    rewrite lookup_insert_ne by exact Hne. reflexivity.
  - rewrite lookup_insert_ne by exact Hne. reflexivity.
Qed.

(** The [blocked] flag is written but never read. *)
Lemma check_ignores_blocked (now : Z) (rl : gmap Z RateEntry) (e : RateEntry) (b : bool) :
  rl !! userId = Some e ->
  let rl' := <[userId := {| requests := requests e; blocked := b |}]> rl in
  fst (checkRateLimit cfg whitelist now userId rl')
  = fst (checkRateLimit cfg whitelist now userId rl)
  /\ window (snd (checkRateLimit cfg whitelist now userId rl')) userId
     = window (snd (checkRateLimit cfg whitelist now userId rl)) userId.
Proof.
  intros He rl'.
  assert (Hw : window rl' userId = window rl userId).
  { unfold window, rl'. rewrite lookup_insert_eq, He. reflexivity. }
  rewrite !check_window, !check_verdict, Hw. split; reflexivity.
Qed.


Lemma gateInv_later (from now : Z) (rl : gmap Z RateEntry) (pre : list Z) :
  from <= now -> gateInv limit userId from rl pre -> gateInv limit userId now rl pre.
Proof.
  intros Hle (Ha & Hb & Hc). repeat split.
  - intros now' H. apply Ha. lia.
  - eapply Forall_impl; [exact Hb|]. simpl. intros. lia.
  - exact Hc.
Qed.

Lemma gateInv_step (now : Z) (rl : gmap Z RateEntry) (pre : list Z) :
  gateInv limit userId now rl pre ->
  gateInv limit userId now (snd (checkRateLimit cfg whitelist now userId rl))
    (if fst (checkRateLimit cfg whitelist now userId rl)
     then pre ++ [now] else pre).
Proof.
  intros (Ha & Hb & Hc).
  pose proof (check_verdict now rl) as Hv.
  pose proof (check_window now rl) as Hw.
  destruct (fst (checkRateLimit cfg whitelist now userId rl)).
  - symmetry in Hv. apply Nat.ltb_lt in Hv. repeat split.
    + intros now' Hle. rewrite Hw, !List.filter_app.
      rewrite (filter_filter_weaker (recent now') (recent now))
        by (intros x; apply recent_later; exact Hle).
      rewrite (Ha now' Hle). reflexivity.
    + apply Forall_app. split; [exact Hb|]. constructor; [lia|constructor].
    + intros T. rewrite List.filter_app, length_app. simpl.
      destruct (inWindow T now) eqn:HT; simpl; [|specialize (Hc T); lia].
      enough (length (List.filter (inWindow T) pre)
              <= length (List.filter (recent now) pre))%nat
        by (rewrite <- (Ha now) in H by lia; lia).
      apply filter_length_le. intros x _ Hx.
      unfold inWindow in *. unfold recent.
      apply andb_prop in HT as [_ HT2]. apply andb_prop in Hx as [Hx1 _].
      apply Z.leb_le in HT2. apply Z.ltb_lt in Hx1. apply Z.ltb_lt. lia.
  - repeat split; [|exact Hb|exact Hc].
    intros now' Hle. rewrite Hw.
    rewrite (filter_filter_weaker (recent now') (recent now))
      by (intros x; apply recent_later; exact Hle).
    apply Ha. exact Hle.
Qed.

Lemma gateInv_other (now other : Z) (rl : gmap Z RateEntry) (pre : list Z) :
  other <> userId ->
  gateInv limit userId now rl pre ->
  gateInv limit userId now (snd (checkRateLimit cfg whitelist now other rl)) pre.
Proof.
  intros Hne (Ha & Hb & Hc). repeat split; [|exact Hb|exact Hc].
  intros now' Hle. rewrite check_other by exact Hne. apply Ha. exact Hle.
Qed.

Lemma runCalls_bound (calls : list (Z * Z)) :
  forall (from : Z) (rl : gmap Z RateEntry) (pre : list Z),
    gateInv limit userId from rl pre ->
    clockMonotone from calls ->
    forall T,
      (length (List.filter (inWindow T)
         (pre ++ admittedTimes userId calls
                   (fst (runCalls cfg whitelist calls rl)))) <= limit)%nat.
Proof.
  induction calls as [|[u now] rest IH]; intros from rl pre Hinv Hmono T.
  - simpl. rewrite app_nil_r. apply Hinv.
  - destruct Hmono as [Hle Hmono]. simpl.
    destruct (checkRateLimit cfg whitelist now u rl) as [ok rl1] eqn:Hc.
    destruct (runCalls cfg whitelist rest rl1) as [oks rl2] eqn:Hr. simpl.
    apply (gateInv_later from now) in Hinv; [|exact Hle].
    destruct (bool_decide (u = userId)) eqn:Hu; simpl.
    + apply bool_decide_eq_true in Hu. subst u.
      pose proof (gateInv_step now rl pre Hinv) as Hstep.
      rewrite Hc in Hstep. simpl in Hstep.
      specialize (IH now rl1 _ Hstep Hmono T). rewrite Hr in IH. simpl in IH.
      destruct ok; simpl; [|exact IH].
      rewrite <- app_assoc in IH. exact IH.
    + apply bool_decide_eq_false in Hu.
      pose proof (gateInv_other now u rl pre Hu Hinv) as Hstep.
      rewrite Hc in Hstep. simpl in Hstep.
      specialize (IH now rl1 _ Hstep Hmono T). rewrite Hr in IH. exact IH.
Qed.


Lemma expired_window (now : Z) (l : list Z) :
  Forall (fun t => 60000 <= now - t) l -> List.filter (recent now) l = [].
Proof.
  induction 1 as [|t l Ht _ IH]; simpl; [reflexivity|].
  unfold recent at 1. destruct (Z.ltb_spec (now - t) 60000); [lia|exact IH].
Qed.

Lemma live_window (now : Z) (l : list Z) :
  Forall (fun t => now - t < 60000) l -> List.filter (recent now) l = l.
Proof.
  induction 1 as [|t l Ht _ IH]; simpl; [reflexivity|].
  unfold recent at 1. destruct (Z.ltb_spec (now - t) 60000); [|lia].
  rewrite IH. reflexivity.
Qed.

Lemma burst_verdicts (ts : list Z) :
  forall (rl : gmap Z RateEntry),
    Forall (fun a => Forall (fun b => b - a < 60000) ts) (window rl userId) ->
    within60 ts ->
    fst (runCalls cfg whitelist (map (pair userId) ts) rl)
    = replicate (Nat.min (limit - length (window rl userId)) (length ts)) true
      ++ replicate (length ts - (limit - length (window rl userId))) false.
Proof.
  induction ts as [|now rest IH]; intros rl Hw Hts.
  - simpl. rewrite Nat.min_0_r. reflexivity.
  - destruct Hts as [Hnow Hrest]. cbn [map runCalls].
    pose proof (check_verdict now rl) as Hv.
    pose proof (check_window now rl) as Hwin.
    rewrite live_window in Hv, Hwin
      by (eapply Forall_impl; [exact Hw|]; simpl; intros a Ha;
          inversion Ha; assumption).
    destruct (checkRateLimit cfg whitelist now userId rl) as [ok rl1].
    simpl in Hv, Hwin.
    assert (Hw1 : Forall (fun a => Forall (fun b => b - a < 60000) rest)
                         (window rl1 userId)).
    { rewrite Hwin.
      assert (Hold : Forall (fun a => Forall (fun b => b - a < 60000) rest)
                            (window rl userId)).
      { eapply Forall_impl; [exact Hw|]. simpl. intros a Ha.
        inversion Ha; assumption. }
      destruct ok; [|exact Hold].
      apply Forall_app. split; [exact Hold|]. constructor; [exact Hnow|constructor]. }
    specialize (IH rl1 Hw1 Hrest).
    destruct (runCalls cfg whitelist (map (pair userId) rest) rl1) as [oks rl2].
    simpl in IH. simpl. rewrite IH, Hwin, Hv.
    destruct (Nat.ltb_spec (length (window rl userId)) limit) as [Hlt|Hge].
    + rewrite length_app. simpl.
      replace (limit - length (window rl userId))%nat
        with (S (limit - (length (window rl userId) + 1)))%nat by lia.
      reflexivity.
    + replace (limit - length (window rl userId))%nat with 0%nat by lia.
      simpl. rewrite Nat.sub_0_r. reflexivity.
Qed.

End RateGate.

(** C9. For a caller that is not whitelisted, with limit
    [RATE_LIMIT_PER_USER]: (1) a call is admitted exactly when fewer than
    the limit of the stored timestamps are younger than 60 s, so the call
    that finds the limit reached is rejected; an admitted call appends its
    timestamp and a rejected call appends none; (2) the [blocked] flag has
    no effect on later verdicts; (3) once every stored timestamp is at least
    60 s old the window is empty again; (4) of a burst of calls less than
    60 s apart, starting from an empty window, exactly the first [limit] are
    admitted and all later ones rejected; (5) along any run of calls with a
    clock that does not go backwards, no rolling 60-second window holds more
    than [limit] admitted calls of the caller. *)
Theorem rate_gate_sliding_window (cfg : Config) (whitelist : list Z) (userId : Z) :
  isWhitelisted whitelist userId = false ->
  (forall now rl,
      let live := List.filter (recent now) (window rl userId) in
      let result := checkRateLimit cfg whitelist now userId rl in
      fst result = (length live <? RATE_LIMIT_PER_USER cfg)%nat
      /\ window (snd result) userId = (if fst result then live ++ [now] else live))
  /\ (forall now rl e b,
         rl !! userId = Some e ->
         fst (checkRateLimit cfg whitelist now userId
                (<[userId := {| requests := requests e; blocked := b |}]> rl))
         = fst (checkRateLimit cfg whitelist now userId rl))
  /\ (forall now rl,
         Forall (fun t => 60000 <= now - t) (window rl userId) ->
         List.filter (recent now) (window rl userId) = []
         /\ fst (checkRateLimit cfg whitelist now userId rl)
            = (0 <? RATE_LIMIT_PER_USER cfg)%nat)
  /\ (forall ts rl,
         window rl userId = [] ->
         within60 ts ->
         fst (runCalls cfg whitelist (map (pair userId) ts) rl)
         = replicate (Nat.min (RATE_LIMIT_PER_USER cfg) (length ts)) true
           ++ replicate (length ts - RATE_LIMIT_PER_USER cfg) false)
  /\ (forall calls from rl,
         window rl userId = [] ->
         clockMonotone from calls ->
         forall T,
           (length (List.filter (inWindow T)
              (admittedTimes userId calls (fst (runCalls cfg whitelist calls rl))))
            <= RATE_LIMIT_PER_USER cfg)%nat).
Proof.
  intros Hw. repeat apply conj.
  - intros now rl. simpl. split.
    + apply check_verdict. exact Hw.
    + apply check_window. exact Hw.
  - intros now rl e b He.
    apply (check_ignores_blocked cfg whitelist userId Hw now rl e b He).
  - intros now rl Hold.
    pose proof (expired_window now _ Hold) as Hnil. split; [exact Hnil|].
    rewrite (check_verdict cfg whitelist userId Hw), Hnil. reflexivity.
  - intros ts rl Hempty Hts.
    pose proof (burst_verdicts cfg whitelist userId Hw ts rl) as Hb.
    rewrite Hempty in Hb. simpl in Hb. rewrite Nat.sub_0_r in Hb.
    apply Hb; [constructor|exact Hts].
  - intros calls from rl Hempty Hmono T.
    apply (runCalls_bound cfg whitelist userId Hw calls from rl [] ); [|exact Hmono].
    unfold gateInv. rewrite Hempty. repeat split; simpl; try constructor.
    lia.
Qed.

(** The gate of the shipped configuration (30 calls a minute) on user 42,
    who is not whitelisted: 31 calls one second apart, then one call 61 s
    after the last admitted one. *)
Lemma rate_gate_sliding_window_witness :
  isWhitelisted [7] 42 = false
  /\ fst (runCalls CONFIG [7]
            (map (pair 42) (map (fun k => 1000 * Z.of_nat k) (seq 0 31))) ∅)
     = replicate 30 true ++ [false]
  /\ fst (checkRateLimit CONFIG [7] 90000 42
            {[ 42 := {| requests := [28000; 29000]; blocked := true |} ]})
     = true.
Proof.
  destruct (rate_gate_sliding_window CONFIG [7] 42 eq_refl)
    as (_ & _ & Hexpired & Hburst & _).
  split; [reflexivity|]. split.
  - apply (Hburst (map (fun k => 1000 * Z.of_nat k) (seq 0 31)) ∅).
    + unfold window. rewrite lookup_empty. reflexivity.
    + simpl. repeat (split || constructor || lia).
  - refine (proj2 (Hexpired 90000
             {[ 42 := {| requests := [28000; 29000]; blocked := true |} ]} _)).
    unfold window. rewrite lookup_singleton_eq. simpl.
    repeat constructor; lia.
Defined.

(** ** Number comparisons *)

Lemma SFcompare_swap (a b : spec_float) :
  SFcompare b a = option_map CompOpp (SFcompare a b).
Proof.
  destruct a as [sa|sa| |sa ma ea], b as [sb|sb| |sb mb eb]; simpl;
    try reflexivity;
    try (destruct sa; reflexivity); try (destruct sb; reflexivity);
    try (destruct sa, sb; reflexivity).
  rewrite (Z.compare_antisym ea eb).
  rewrite !Pos.compare_cont_spec. simpl.
  rewrite (Pos.compare_antisym ma mb).
  destruct sa, sb; try reflexivity;
    destruct (ea ?= eb)%Z; simpl; try reflexivity;
    destruct (ma ?= mb)%positive; reflexivity.
Qed.

(** [a < b] excludes [b === a] and [b < a]. *)
Lemma ltb_exclusive (a b : float) :
  (a <? b)%float = true ->
  (b =? a)%float = false /\ (b <? a)%float = false.
Proof.
  rewrite !FloatAxioms.ltb_spec, FloatAxioms.eqb_spec. unfold SFltb, SFeqb.
  rewrite (SFcompare_swap (Prim2SF a) (Prim2SF b)).
  destruct (SFcompare (Prim2SF a) (Prim2SF b)) as [[]|]; simpl;
    intros H; try discriminate; split; reflexivity.
Qed.

(** [a === b] excludes [a < b]. *)
Lemma eqb_not_ltb (a b : float) :
  (a =? b)%float = true -> (a <? b)%float = false.
Proof.
  rewrite FloatAxioms.ltb_spec, FloatAxioms.eqb_spec. unfold SFltb, SFeqb.
  destruct (SFcompare (Prim2SF a) (Prim2SF b)) as [[]|]; simpl;
    intros H; try discriminate; reflexivity.
Qed.

(** On a number that is not [NaN], [x || 0] is [x] up to the sign of zero. *)
Lemma or_num_zero_eqb (x : float) :
  PrimFloat.is_nan x = false -> (JS.or_num x 0 =? x)%float = true.
Proof.
  unfold JS.or_num, JS.truthy, PrimFloat.is_nan, PrimFloat.is_zero.
  intros Hnan. apply negb_false_iff in Hnan. rewrite Hnan. simpl.
  destruct (x =? zero)%float eqn:Hz; simpl.
  - rewrite FloatAxioms.eqb_spec in Hz |- *. unfold SFeqb in *.
    change zero with 0%float in Hz.
    rewrite (SFcompare_swap (Prim2SF x) (Prim2SF 0)).
    destruct (SFcompare (Prim2SF x) (Prim2SF 0)) as [[]|]; simpl;
      try discriminate; reflexivity.
  - exact Hnan.
Qed.

(** ** Objects and key sets *)

Lemma obj_get_In_keys (obj : PositionMap) (key : string) (v : Position) :
  obj_get obj key = Some v -> In key (obj_keys obj).
Proof.
  induction obj as [|[k w] rest IH]; simpl; [discriminate|].
  destruct (String.eqb_spec k key) as [->|Hne]; intros H.
  - left. reflexivity.
  - right. apply IH. exact H.
Qed.

Lemma set_of_In (l : list string) (x : string) : In x (set_of l) <-> In x l.
Proof.
  induction l as [|a l IH]; simpl; [tauto|].
  rewrite List.filter_In, IH.
  destruct (String.eqb_spec x a) as [->|Hne]; simpl; split; intros H.
  - left. reflexivity.
  - left. reflexivity.
  - destruct H as [H|[H _]]; [left; exact H|right; exact H].
  - destruct H as [H|H]; [left; exact H|right; split; [exact H|reflexivity]].
Qed.

Lemma set_of_NoDup (l : list string) : List.NoDup (set_of l).
Proof.
  induction l as [|a l IH]; simpl; constructor.
  - rewrite List.filter_In. intros [_ H]. rewrite String.eqb_refl in H. discriminate.
  - apply List.NoDup_filter. exact IH.
Qed.





(** ** The loop of the aggregator *)

Section TradeLoop.

Variable now : Z.
Variables oldP newP : PositionMap.

Abbreviation step := (tradeStep now oldP newP).
Abbreviation blank := (newWalletPnL 0 0%float).

Lemma tradeStep_history (w : WalletPnL) (sym : string) :
  tradeHistory (step w sym) = tradeHistory w ++ tradeHistory (step blank sym).
Proof.
  unfold tradeStep.
  destruct (obj_get oldP sym) as [o|], (obj_get newP sym) as [n|]; simpl;
    try reflexivity; try (rewrite app_nil_r; reflexivity).
  destruct (JS.strict_neq (position o) (position n)); simpl;
    [|rewrite app_nil_r; reflexivity].
  destruct (JS.gt (position n) (position o)); reflexivity.
Qed.

Lemma tradeStep_symbol (sym : string) :
  Forall (fun t => t_symbol t = sym) (tradeHistory (step blank sym)).
Proof.
  unfold tradeStep.
  destruct (obj_get oldP sym) as [o|], (obj_get newP sym) as [n|]; simpl;
    repeat constructor.
  destruct (JS.strict_neq (position o) (position n)); simpl; [|constructor].
  destruct (JS.gt (position n) (position o)); repeat constructor.
Qed.

Lemma loop_history (syms : list string) :
  forall w,
    tradeHistory (fold_left step syms w)
    = tradeHistory w ++ tradeHistory (fold_left step syms blank).
Proof.
  induction syms as [|s syms IH]; intros w; simpl.
  - rewrite app_nil_r. reflexivity.
  - rewrite (IH (step w s)), (IH (step blank s)), tradeStep_history.
    rewrite <- app_assoc. reflexivity.
Qed.

Lemma tradesOf_other (sym s : string) :
  s <> sym -> tradesOf sym (tradeHistory (step blank s)) = [].
Proof.
  intros Hne. pose proof (tradeStep_symbol s) as Hs.
  unfold tradesOf. induction Hs as [|t l Ht _ IH]; simpl; [reflexivity|].
  rewrite Ht. destruct (String.eqb_spec s sym); [contradiction|exact IH].
Qed.

Lemma tradesOf_same (sym : string) :
  tradesOf sym (tradeHistory (step blank sym)) = tradeHistory (step blank sym).
Proof.
  pose proof (tradeStep_symbol sym) as Hs.
  unfold tradesOf. induction Hs as [|t l Ht _ IH]; simpl; [reflexivity|].
  rewrite Ht, String.eqb_refl, IH. reflexivity.
Qed.

(** A symbol that the loop visits gets, in the whole loop, the records of
    its own step and no other. *)
Lemma loop_tradesOf (sym : string) (syms : list string) :
  List.NoDup syms -> In sym syms ->
  tradesOf sym (tradeHistory (fold_left step syms blank))
  = tradeHistory (step blank sym).
Proof.
  assert (Hskip : forall l, ~ In sym l ->
            tradesOf sym (tradeHistory (fold_left step l blank)) = []).
  { induction l as [|s l IH]; intros Hnot; simpl; [reflexivity|].
    rewrite loop_history. unfold tradesOf. rewrite List.filter_app.
    fold (tradesOf sym (tradeHistory (step blank s))).
    fold (tradesOf sym (tradeHistory (fold_left step l blank))).
    rewrite tradesOf_other by (intros ->; apply Hnot; left; reflexivity).
    rewrite IH by (intros H; apply Hnot; right; exact H). reflexivity. }
  induction 1 as [|s l Hnot Hnd IH]; intros Hin; [destruct Hin|].
  simpl. rewrite loop_history. unfold tradesOf. rewrite List.filter_app.
  fold (tradesOf sym (tradeHistory (step blank s))).
  fold (tradesOf sym (tradeHistory (fold_left step l blank))).
  destruct Hin as [->|Hin].
  - rewrite tradesOf_same, Hskip by exact Hnot. apply app_nil_r.
  - rewrite tradesOf_other by (intros ->; contradiction).
    rewrite IH by exact Hin. reflexivity.
Qed.

End TradeLoop.

(** The history after [updateWalletPnL]: the records pushed, then the cap. *)
Lemma updateEntry_history (now : Z) (oldState newState : Snapshot) (w : WalletPnL) :
  tradeHistory (updateEntry now oldState newState w)
  = JS.slice_last 1000 (tradeHistory w ++ pushedTrades now oldState newState).
Proof.
  unfold updateEntry, settle, pushedTrades. cbn [tradeHistory].
  rewrite loop_history.
  destruct (Nat.ltb_spec 1000 (length (tradeHistory w ++
     tradeHistory (fold_left (tradeStep now (positions oldState) (positions newState))
        (allSymbols (positions oldState) (positions newState))
        (newWalletPnL 0 0%float))))) as [Hlt|Hge]; [reflexivity|].
  unfold JS.slice_last.
  replace (_ - 1000)%nat with 0%nat by lia. reflexivity.
Qed.

Lemma pushedTrades_symbol (now : Z) (oldState newState : Snapshot) (sym : string) :
  In sym (allSymbols (positions oldState) (positions newState)) ->
  tradesOf sym (pushedTrades now oldState newState)
  = tradeHistory (tradeStep now (positions oldState) (positions newState)
                            (newWalletPnL 0 0%float) sym).
Proof.
  intros Hin. unfold pushedTrades. apply loop_tradesOf; [|exact Hin].
  apply set_of_NoDup.
Qed.

Lemma allSymbols_old (oldP newP : PositionMap) (sym : string) (o : Position) :
  obj_get oldP sym = Some o -> In sym (allSymbols oldP newP).
Proof.
  intros H. unfold allSymbols. apply set_of_In, in_or_app. left.
  eapply obj_get_In_keys. exact H.
Qed.

(** ** The total *)

(** C7. After [updateWalletPnL] the entry of the address exists and its
    [totalPnL] is its [realizedPnL] plus its [unrealizedPnL], whatever the
    entry held before; a newly created entry satisfies the same equation. *)
Theorem total_pnl_is_recomputed (now : Z) (address : string)
    (oldState newState : Snapshot) (store : gmap string WalletPnL) (initial : float) :
  (exists w,
      updateWalletPnL now address oldState newState store !! address = Some w
      /\ totalPnL w = (realizedPnL w + unrealizedPnL w)%float
      /\ unrealizedPnL w = currentUnrealizedPnL (positions newState))
  /\ (forall w,
        totalPnL (updateEntry now oldState newState w)
        = (realizedPnL (updateEntry now oldState newState w)
           + unrealizedPnL (updateEntry now oldState newState w))%float)
  /\ totalPnL (newWalletPnL now initial)
     = (realizedPnL (newWalletPnL now initial)
        + unrealizedPnL (newWalletPnL now initial))%float.
Proof.
  repeat apply conj.
  - unfold updateWalletPnL, initializeWalletPnL.
    destruct (store !! address) as [w0|] eqn:Hw.
    + rewrite Hw. eexists. rewrite lookup_insert_eq.
      split; [reflexivity|]. split; reflexivity.
    + rewrite lookup_insert_eq. eexists. rewrite lookup_insert_eq.
      split; [reflexivity|]. split; reflexivity.
  - intros w. reflexivity.
  - reflexivity.
Qed.

(** ** Order of the diff *)

Lemma compareSymbol_symbols (oldP newP : PositionMap) (sym : string) :
  map ch_symbol (compareSymbol oldP newP sym)
  = if changed oldP newP sym then [sym] else [].
Proof.
  unfold changed, compareSymbol.
  destruct (obj_get oldP sym) as [o|], (obj_get newP sym) as [n|];
    try reflexivity.
  destruct (_ || _); reflexivity.
Qed.

Lemma flat_map_symbols (oldP newP : PositionMap) (syms : list string) :
  map ch_symbol (flat_map (compareSymbol oldP newP) syms)
  = List.filter (changed oldP newP) syms.
Proof.
  induction syms as [|s syms IH]; simpl; [reflexivity|].
  rewrite map_app, compareSymbol_symbols, IH.
  destruct (changed oldP newP s); reflexivity.
Qed.




(** ** Balance history and the monitor *)

Lemma tradeStep_balanceHistory (now : Z) (oldP newP : PositionMap)
    (w : WalletPnL) (sym : string) :
  balanceHistory (tradeStep now oldP newP w sym) = balanceHistory w.
Proof.
  unfold tradeStep.
  destruct (obj_get oldP sym) as [o|], (obj_get newP sym) as [n|];
    try reflexivity.
  destruct (JS.strict_neq _ _); [|reflexivity].
  destruct (JS.gt _ _); reflexivity.
Qed.

Lemma loop_balanceHistory (now : Z) (oldP newP : PositionMap) (syms : list string) :
  forall w,
    balanceHistory (fold_left (tradeStep now oldP newP) syms w) = balanceHistory w.
Proof.
  induction syms as [|s syms IH]; intros w; simpl; [reflexivity|].
  rewrite IH. apply tradeStep_balanceHistory.
Qed.

(** [updateWalletPnL] pushes one balance record, whatever the positions. *)
Lemma updateEntry_balanceHistory (now : Z) (oldState newState : Snapshot)
    (w : WalletPnL) :
  balanceHistory (updateEntry now oldState newState w)
  = JS.slice_last 1000
      (balanceHistory w
       ++ [ {| b_balance := JS.or_num (balance newState) 0%float;
               b_timestamp := now |} ]).
Proof.
  unfold updateEntry, settle. cbn [balanceHistory].
  rewrite loop_balanceHistory.
  destruct (Nat.ltb_spec 1000 (length (balanceHistory w ++
     [ {| b_balance := JS.or_num (balance newState) 0%float;
          b_timestamp := now |} ]))) as [Hlt|Hge]; [reflexivity|].
  unfold JS.slice_last. replace (_ - 1000)%nat with 0%nat by lia. reflexivity.
Qed.




(** ** Failed fetches *)

Lemma fetchAttempts_exhausted {A} (transport : nat -> option A) (retries : nat) :
  forall k0,
    (forall k, (k0 <= k <= k0 + retries)%nat -> transport k = None) ->
    fetchAttempts transport retries k0 = None.
Proof.
  induction retries as [|r IH]; intros k0 Hfail; simpl.
  - rewrite (Hfail k0) by lia. reflexivity.
  - rewrite (Hfail k0) by lia. apply IH. intros k Hk. apply Hfail. lia.
Qed.

(** Every failure of the fetch comes back as the empty state. *)
Lemma failed_fetch_state (cfg : Config) (checksummed : option string)
    (cached : option AccountJson) (transport : nat -> option AccountJson)
    (markPrice : Z -> option float) :
  fetchFails cfg checksummed cached transport ->
  fetchPositions checksummed (fetchWithRetry cfg cached transport) markPrice
  = emptyState.
Proof.
  intros [->|[[-> Hfail]|(json & Hjson & Hacc)]].
  - reflexivity.
  - unfold fetchWithRetry.
    rewrite fetchAttempts_exhausted by (intros k Hk; apply Hfail; lia).
    destruct checksummed; reflexivity.
  - rewrite Hjson. unfold fetchPositions. destruct checksummed; [|reflexivity].
    destruct Hacc as [->|(acc & rest & -> & ->)]; reflexivity.
Qed.

(** What the program does with a failed fetch (invalid address, every
    attempt of the retry budget failed, or no account data): it is answered
    by the empty state [{ balance: 0, positions: {} }], and the cycle
    handles that state as the new snapshot.  For a prior snapshot without
    positions the diff is then empty: the P&L store is left unchanged and
    the stored snapshot becomes the empty state. *)
Theorem failed_fetch_yields_empty_state (cfg : Config) (now : Z)
    (address : string) (checksummed : option string)
    (cached : option AccountJson) (transport : nat -> option AccountJson)
    (markPrice : Z -> option float) (dispatched : bool) (world : World)
    (oldState : Snapshot) :
  fetchFails cfg checksummed cached transport ->
  previousStates world !! address = Some oldState ->
  let world' :=
    monitorCycle cfg now address checksummed cached transport markPrice
                 dispatched world in
  fetchPositions checksummed (fetchWithRetry cfg cached transport) markPrice
  = emptyState
  /\ world' = monitorAddress now address emptyState dispatched world
  /\ (positions oldState = [] ->
      walletPnL world' = walletPnL world
      /\ previousStates world' = <[address := emptyState]> (previousStates world)).
Proof.
  intros Hfail Hprev world'.
  pose proof (failed_fetch_state cfg checksummed cached transport markPrice Hfail)
    as Hempty.
  split; [exact Hempty|].
  assert (Hw : world' = monitorAddress now address emptyState dispatched world).
  { unfold world', monitorCycle. rewrite Hempty. reflexivity. }
  split; [exact Hw|].
  intros Hflat. rewrite Hw. unfold monitorAddress. rewrite Hprev.
  unfold comparePositions, allSymbols. rewrite Hflat. simpl.
  split; reflexivity.
Qed.

(** The upstream fails four times in a row for an address whose prior
    snapshot has no positions. *)
Lemma failed_fetch_yields_empty_state_witness :
  fetchFails CONFIG (Some Scenario.wallet) None (fun _ => None)
  /\ previousStates (Scenario.tracking Scenario.flat) !! Scenario.wallet
     = Some Scenario.flat
  /\ walletPnL (monitorCycle CONFIG 15000 Scenario.wallet (Some Scenario.wallet)
                  None (fun _ => None) (fun _ => None) true
                  (Scenario.tracking Scenario.flat))
     = walletPnL (Scenario.tracking Scenario.flat).
Proof.
  assert (Hfail : fetchFails CONFIG (Some Scenario.wallet) None (fun _ => None)).
  { right. left. split; reflexivity. }
  assert (Hprev : previousStates (Scenario.tracking Scenario.flat)
                    !! Scenario.wallet = Some Scenario.flat)
    by apply lookup_singleton_eq.
  split; [exact Hfail|]. split; [exact Hprev|].
  destruct (failed_fetch_yields_empty_state CONFIG 15000 Scenario.wallet
              (Some Scenario.wallet) None (fun _ => None) (fun _ => None) true
              (Scenario.tracking Scenario.flat) Scenario.flat Hfail Hprev)
    as (_ & _ & Hsame).
  exact (proj1 (Hsame eq_refl)).
Defined.

(** C1 at a failing input: an address is tracked with an open BTC position
    in its prior snapshot, and every upstream attempt of the fetch fails.
    The failure comes back as the empty state and is diffed against the
    prior snapshot: the cycle stores the empty state, records a [Close] of
    the position and realizes its 200 of unrealized P&L, where the prior
    snapshot and the P&L entry should have been left as they were. *)
Lemma failed_fetch_closes_positions_counterexample :
  let world := Scenario.tracking Scenario.btcOpen in
  let world' :=
    monitorCycle CONFIG 15000 Scenario.wallet (Some Scenario.wallet)
                 None (fun _ => None) (fun _ => None) true world in
  fetchFails CONFIG (Some Scenario.wallet) None (fun _ => None)
  /\ previousStates world !! Scenario.wallet = Some Scenario.btcOpen
  /\ previousStates world' !! Scenario.wallet = Some emptyState
  /\ walletPnL world' <> walletPnL world
  /\ exists w,
       walletPnL world' !! Scenario.wallet = Some w
       /\ map t_type (tradeHistory w) = [Close]
       /\ realizedPnL w = 200%float
       /\ trades w = 1%nat.
Proof.
  intros world world'.
  assert (Hprev : previousStates world !! Scenario.wallet = Some Scenario.btcOpen)
    by apply lookup_singleton_eq.
  assert (Hw : walletPnL world' !! Scenario.wallet
               = Some (updateEntry 15000 Scenario.btcOpen emptyState
                         (newWalletPnL 0 1000%float))).
  { unfold world', monitorCycle, monitorAddress. rewrite Hprev.
    cbn [fetchWithRetry fetchAttempts fetchPositions].
    replace (comparePositions Scenario.btcOpen emptyState)
      with [ {| ch_symbol := "BTC"; ch_title := "POSITION CLOSED";
                ch_before := Some Scenario.btcLong; ch_after := None |} ]
      by reflexivity.
    cbn [walletPnL]. unfold updateWalletPnL, initializeWalletPnL, world,
      Scenario.tracking. cbn [walletPnL].
    rewrite !lookup_singleton_eq. apply lookup_insert_eq. }
  split; [right; left; split; reflexivity|]. split; [exact Hprev|]. split.
  - unfold world', monitorCycle, monitorAddress. rewrite Hprev.
    cbn [fetchWithRetry fetchAttempts fetchPositions].
    replace (comparePositions Scenario.btcOpen emptyState)
      with [ {| ch_symbol := "BTC"; ch_title := "POSITION CLOSED";
                ch_before := Some Scenario.btcLong; ch_after := None |} ]
      by reflexivity.
    cbn [previousStates]. apply lookup_insert_eq.
  - split.
    + intros Heq. rewrite Heq in Hw. unfold world, Scenario.tracking in Hw.
      cbn [walletPnL] in Hw. rewrite lookup_singleton_eq in Hw.
      discriminate Hw.
    + eexists. split; [exact Hw|]. repeat split; reflexivity.
Qed.

(** ** Entry-price changes at equal size *)

(** A position whose size is unchanged and whose entry price changed is
    reported under the title of a reduction, and the aggregator records
    nothing for it. *)
Lemma equal_size_entry_change (now : Z) (oldP newP : PositionMap) (sym : string)
    (o n : Position) (w : WalletPnL) :
  obj_get oldP sym = Some o ->
  obj_get newP sym = Some n ->
  (position o =? position n)%float = true ->
  JS.strict_neq (avg_entry_price o) (avg_entry_price n) = true ->
  compareSymbol oldP newP sym
  = [ {| ch_symbol := sym; ch_title := "POSITION REDUCED";
         ch_before := Some o; ch_after := Some n |} ]
  /\ tradeStep now oldP newP w sym = w.
Proof.
  intros Ho Hn Hsize Hentry. unfold compareSymbol, tradeStep.
  rewrite Ho, Hn, Hentry. unfold JS.strict_neq, JS.gt.
  rewrite Hsize, (eqb_not_ltb _ _ Hsize). split; reflexivity.
Qed.

(** C8 at a failing input: ETH stays at 10 units while its entry price goes
    from 2000 to 2100.  The diff has one entry and its title is the one of a
    reduction, although [formatPositionUpdate] has the title
    [POSITION UPDATED] for an action that is neither an opening, a closing,
    an increase nor a reduction; the aggregator pushes no record. *)
Theorem equal_size_change_reported_as_reduced :
  map ch_title (comparePositions Scenario.eth10 Scenario.eth10')
  = ["POSITION REDUCED"]
  /\ map ch_before (comparePositions Scenario.eth10 Scenario.eth10')
     = [Some Scenario.ethLong10]
  /\ map ch_after (comparePositions Scenario.eth10 Scenario.eth10')
     = [Some Scenario.ethLong10']
  /\ updateTitle "updated" = "POSITION UPDATED"
  /\ pushedTrades 15000 Scenario.eth10 Scenario.eth10' = [].
Proof. repeat split; reflexivity. Qed.

(** ** Holding times *)

(** C6 at a failing input: the same long BTC position is opened at 1 h,
    closed at 2 h, opened again at 10 h and closed at 11 h.  For the second
    closing trade [find] returns the first opening trade of the history, not
    the most recent one before it, so the two holding times are 1 h and 10 h
    and their mean 5.5 h, where the pairing with the most recent opening
    trade gives 1 h and 1 h. *)
Theorem hold_time_pairs_with_first_open :
  exists open1 close1 open2 close2,
    tradeHistory Scenario.roundTrips = [open1; close1; open2; close2]
    /\ map t_type [open1; close1; open2; close2] = [Open; Close; Open; Close]
    /\ map t_timestamp [open1; close1; open2; close2]
       = [3600000; 7200000; 36000000; 39600000]
    /\ findOpenTrade Scenario.roundTrips close2 = Some open1
    /\ mostRecentOpen Scenario.roundTrips close2 = Some open2
    /\ map (holdTime Scenario.roundTrips) [close1; close2] = [1%float; 10%float]
    /\ avgHoldTime Scenario.roundTrips = 5.5%float
    /\ specAvgHoldTime Scenario.roundTrips = 1%float.
Proof. do 4 eexists. repeat split; reflexivity. Qed.

(** [find] returns the earliest opening trade that the callback accepts:
    nothing before it in the history is accepted. *)
Lemma findOpenTrade_first (w : WalletPnL) (trade openTrade : Trade) :
  findOpenTrade w trade = Some openTrade ->
  exists before after,
    tradeHistory w = before ++ openTrade :: after
    /\ opens trade openTrade = true
    /\ Forall (fun t => opens trade t = false) before.
Proof.
  unfold findOpenTrade. induction (tradeHistory w) as [|t l IH]; simpl;
    [discriminate|].
  destruct (opens trade t) eqn:Ht.
  - intros [= <-]. exists [], l. repeat split; [exact Ht|constructor].
  - intros H. destruct (IH H) as (before & after & -> & Hop & Hall).
    exists (t :: before), after. repeat split; [exact Hop|].
    constructor; assumption.
Qed.

(** ** Drawdown *)

(** C10. There is an entry that the program can reach, with initial balance
    0, whose equity never exceeds 0 and is negative at some record, for
    which the drawdown loop divides by its peak 0 and returns an infinite
    maximum drawdown. *)
Theorem drawdown_divides_by_zero_peak :
  exists w,
    reachable w
    /\ initialBalance w = 0%float
    /\ Forall (fun record => JS.gt (totalValue w record) 0%float = false)
              (balanceHistory w)
    /\ Exists (fun record => (totalValue w record <? 0)%float = true)
              (balanceHistory w)
    /\ peak (fold_left (drawdownStep w) (balanceHistory w)
               {| maxDrawdown := 0%float; peak := initialBalance w;
                  currentDrawdown := 0%float |}) = 0%float
    /\ maxDrawdownOf w = infinity
    /\ PrimFloat.is_finite (maxDrawdownOf w) = false.
Proof.
  exists Scenario.sunk. repeat apply conj.
  - apply reachable_update. apply reachable_new.
  - reflexivity.
  - repeat constructor.
  - apply Exists_cons_tl. apply Exists_cons_hd. reflexivity.
  - reflexivity.
  - reflexivity.
  - reflexivity.
Qed.

(** * Further properties *)

(** ** More on number comparisons *)

Lemma SFcompare_refl (p : spec_float) :
  p <> S754_nan -> SFcompare p p = Some Eq.
Proof.
  destruct p as [s|s| |s m e]; simpl; intros H; try reflexivity.
  - destruct s; reflexivity.
  - contradiction.
  - rewrite Z.compare_refl, Pos.compare_cont_refl. destruct s; reflexivity.
Qed.


Lemma is_nan_Prim2SF (x : float) :
  PrimFloat.is_nan x = false <-> Prim2SF x <> S754_nan.
Proof.
  unfold PrimFloat.is_nan. rewrite FloatAxioms.eqb_spec. unfold SFeqb. split.
  - intros H Hn. rewrite Hn in H. discriminate.
  - intros H. rewrite (SFcompare_refl _ H). reflexivity.
Qed.

(** A comparison that holds has two numbers as operands. *)
Lemma ltb_numbers (a b : float) :
  (a <? b)%float = true ->
  PrimFloat.is_nan a = false /\ PrimFloat.is_nan b = false.
Proof.
  rewrite FloatAxioms.ltb_spec. unfold SFltb. intros H.
  split; apply is_nan_Prim2SF; intros Hn; rewrite Hn in H.
  - discriminate.
  - destruct (Prim2SF a); discriminate.
Qed.


(** ** The diff, entry by entry *)

Lemma obj_get_In (obj : PositionMap) (key : string) (v : Position) :
  obj_get obj key = Some v -> In (key, v) obj.
Proof.
  induction obj as [|[k w] rest IH]; simpl; [discriminate|].
  destruct (String.eqb_spec k key) as [->|Hne]; intros H.
  - left. congruence.
  - right. apply IH. exact H.
Qed.

Lemma obj_get_None_keys (obj : PositionMap) (key : string) :
  obj_get obj key = None -> ~ In key (obj_keys obj).
Proof.
  induction obj as [|[k w] rest IH]; simpl; [tauto|].
  destruct (String.eqb_spec k key) as [->|Hne]; [discriminate|].
  intros H [Hk|Hin]; [contradiction|]. exact (IH H Hin).
Qed.

(** X1.  A snapshot whose sizes and entry prices are numbers has an empty
    diff with itself. *)
Theorem diff_of_same_snapshot_is_empty (state : Snapshot) :
  numeric (positions state) ->
  comparePositions state state = [].
Proof.
  intros Hnum. unfold comparePositions.
  induction (allSymbols (positions state) (positions state)) as [|sym l IH];
    simpl; [reflexivity|].
  rewrite IH, app_nil_r. unfold compareSymbol.
  destruct (obj_get (positions state) sym) as [o|] eqn:Ho; [|reflexivity].
  apply obj_get_In in Ho.
  unfold numeric in Hnum. rewrite List.Forall_forall in Hnum.
  destruct (Hnum _ Ho) as [Hsize Hentry]. simpl in Hsize, Hentry.
  unfold JS.strict_neq. fold (PrimFloat.is_nan (position o)).
  fold (PrimFloat.is_nan (avg_entry_price o)). rewrite Hsize, Hentry.
  reflexivity.
Qed.

Lemma diff_of_same_snapshot_is_empty_witness :
  numeric (positions Scenario.ethBtc)
  /\ comparePositions Scenario.ethBtc Scenario.ethBtc = [].
Proof.
  assert (H : numeric (positions Scenario.ethBtc)).
  { repeat constructor. }
  split; [exact H|]. exact (diff_of_same_snapshot_is_empty Scenario.ethBtc H).
Defined.

(** ** The diff and the aggregator *)

Lemma compareSymbol_nil_step (now : Z) (oldP newP : PositionMap) (sym : string)
    (w : WalletPnL) :
  compareSymbol oldP newP sym = [] -> tradeStep now oldP newP w sym = w.
Proof.
  unfold compareSymbol, tradeStep.
  destruct (obj_get oldP sym) as [o|], (obj_get newP sym) as [n|];
    try discriminate; try reflexivity.
  destruct (JS.strict_neq (position o) (position n)); simpl;
    [discriminate|reflexivity].
Qed.

Lemma empty_diff_loop (now : Z) (oldP newP : PositionMap) (syms : list string) :
  flat_map (compareSymbol oldP newP) syms = [] ->
  forall w, fold_left (tradeStep now oldP newP) syms w = w.
Proof.
  induction syms as [|s l IH]; simpl; intros H w; [reflexivity|].
  apply app_eq_nil in H as [Hs Hl].
  rewrite (compareSymbol_nil_step now _ _ _ w Hs). apply IH. exact Hl.
Qed.

(** X3.  When the diff of two snapshots is empty the aggregator has no trade
    to record for them: it pushes nothing and leaves the realized P&L and
    the trade count as they were. *)
Theorem empty_diff_records_no_trade (now : Z) (oldState newState : Snapshot)
    (w : WalletPnL) :
  comparePositions oldState newState = [] ->
  pushedTrades now oldState newState = []
  /\ realizedPnL (updateEntry now oldState newState w) = realizedPnL w
  /\ trades (updateEntry now oldState newState w) = trades w
  /\ tradeHistory (updateEntry now oldState newState w)
     = JS.slice_last 1000 (tradeHistory w).
Proof.
  intros Hnil. unfold comparePositions in Hnil.
  pose proof (empty_diff_loop now _ _ _ Hnil) as Hloop.
  assert (Hp : pushedTrades now oldState newState = []).
  { unfold pushedTrades. rewrite Hloop. reflexivity. }
  split; [exact Hp|].
  split; [unfold updateEntry; rewrite Hloop; reflexivity|].
  split; [unfold updateEntry; rewrite Hloop; reflexivity|].
  rewrite updateEntry_history, Hp, app_nil_r. reflexivity.
Qed.

Lemma empty_diff_records_no_trade_witness :
  comparePositions Scenario.eth10 Scenario.eth10 = []
  /\ pushedTrades 15000 Scenario.eth10 Scenario.eth10 = []
  /\ trades (updateEntry 15000 Scenario.eth10 Scenario.eth10
               Scenario.roundTrips) = 2%nat.
Proof.
  destruct (empty_diff_records_no_trade 15000 Scenario.eth10 Scenario.eth10
              Scenario.roundTrips eq_refl) as (Hp & _ & Ht & _).
  split; [reflexivity|]. split; [exact Hp|]. rewrite Ht. reflexivity.
Defined.

(** ** Counters and caps of the aggregator *)

Lemma tradeStep_trades (now : Z) (oldP newP : PositionMap) (w : WalletPnL)
    (sym : string) :
  trades (tradeStep now oldP newP w sym)
  = (trades w
     + length (List.filter isClosing
                 (tradeHistory (tradeStep now oldP newP (newWalletPnL 0 0%float) sym))))%nat.
Proof.
  unfold tradeStep.
  destruct (obj_get oldP sym) as [o|], (obj_get newP sym) as [n|]; simpl;
    try lia.
  destruct (JS.strict_neq (position o) (position n)); simpl; [|lia].
  destruct (JS.gt (position n) (position o)); simpl; lia.
Qed.

Lemma loop_trades (now : Z) (oldP newP : PositionMap) (syms : list string) :
  forall w,
    trades (fold_left (tradeStep now oldP newP) syms w)
    = (trades w
       + length (List.filter isClosing
                   (tradeHistory (fold_left (tradeStep now oldP newP) syms
                                            (newWalletPnL 0 0%float)))))%nat.
Proof.
  induction syms as [|s l IH]; intros w; simpl; [lia|].
  rewrite (IH (tradeStep now oldP newP w s)).
  rewrite (loop_history now oldP newP l (tradeStep now oldP newP _ s)).
  rewrite List.filter_app, length_app, tradeStep_trades. lia.
Qed.

Lemma tradeStep_opening_pnl (now : Z) (oldP newP : PositionMap) (sym : string) :
  Forall (fun t => isClosing t = false -> t_pnl t = 0%float)
         (tradeHistory (tradeStep now oldP newP (newWalletPnL 0 0%float) sym)).
Proof.
  unfold tradeStep.
  destruct (obj_get oldP sym) as [o|], (obj_get newP sym) as [n|]; simpl;
    repeat constructor; try discriminate.
  destruct (JS.strict_neq (position o) (position n)); simpl; [|constructor].
  destruct (JS.gt (position n) (position o)); repeat constructor; discriminate.
Qed.

Lemma pushedTrades_opening_pnl (now : Z) (oldState newState : Snapshot) :
  Forall (fun t => isClosing t = false -> t_pnl t = 0%float)
         (pushedTrades now oldState newState).
Proof.
  unfold pushedTrades.
  induction (allSymbols (positions oldState) (positions newState))
    as [|s l IH] using rev_ind; [constructor|].
  rewrite fold_left_app. simpl. rewrite tradeStep_history.
  apply Forall_app. split; [exact IH|apply tradeStep_opening_pnl].
Qed.

(** X4.  One update raises the trade count by the number of closing records
    ([close] and [partial_close]) that it pushes; the other records it
    pushes ([open], [increase]) carry a [pnl] of 0. *)
Theorem trade_count_counts_closings (now : Z) (oldState newState : Snapshot)
    (w : WalletPnL) :
  trades (updateEntry now oldState newState w)
  = (trades w
     + length (List.filter isClosing (pushedTrades now oldState newState)))%nat
  /\ Forall (fun t => isClosing t = false -> t_pnl t = 0%float)
            (pushedTrades now oldState newState).
Proof.
  split; [|apply pushedTrades_opening_pnl].
  unfold updateEntry, pushedTrades. cbn [settle trades]. apply loop_trades.
Qed.

Lemma slice_last_length {A} (n : nat) (l : list A) :
  (length (JS.slice_last n l) <= n)%nat.
Proof. unfold JS.slice_last. rewrite length_drop. lia. Qed.

Lemma slice_last_suffix {A} (n : nat) (l : list A) :
  exists evicted, l = evicted ++ JS.slice_last n l.
Proof.
  unfold JS.slice_last. exists (take (length l - n) l).
  symmetry. apply take_drop.
Qed.

(** X5.  After an update neither history holds more than 1000 records; what
    is kept is the end of the history, the oldest records being the ones
    evicted. *)
Theorem histories_are_capped (now : Z) (oldState newState : Snapshot)
    (w : WalletPnL) :
  (length (tradeHistory (updateEntry now oldState newState w)) <= 1000)%nat
  /\ (length (balanceHistory (updateEntry now oldState newState w)) <= 1000)%nat
  /\ (exists evicted,
         tradeHistory w ++ pushedTrades now oldState newState
         = evicted ++ tradeHistory (updateEntry now oldState newState w))
  /\ (exists evicted,
         balanceHistory w
         ++ [ {| b_balance := JS.or_num (balance newState) 0%float;
                 b_timestamp := now |} ]
         = evicted ++ balanceHistory (updateEntry now oldState newState w)).
Proof.
  rewrite updateEntry_history, updateEntry_balanceHistory.
  repeat split; try apply slice_last_length; apply slice_last_suffix.
Qed.

(** ** What the drawdown is computed from *)

Lemma marks_sum_zero (l : list Trade) :
  Forall (fun t => t_pnl t = 0%float) l ->
  fold_left (fun sum t => (sum + JS.or_num (t_pnl t) 0%float)%float) l 0%float
  = 0%float.
Proof.
  induction 1 as [|t l Ht _ IH]; simpl; [reflexivity|].
  rewrite Ht. exact IH.
Qed.

Lemma opening_pnl_markedPnL (w : WalletPnL) (record : BalanceRecord) :
  Forall (fun t => isClosing t = false -> t_pnl t = 0%float) (tradeHistory w) ->
  markedPnL w record = 0%float.
Proof.
  intros Hall. unfold markedPnL. apply marks_sum_zero.
  rewrite List.Forall_forall in *. intros t Ht.
  apply List.filter_In in Ht as [Hin Hf].
  apply andb_prop in Hf as [_ Hc]. apply negb_true_iff in Hc.
  exact (Hall t Hin Hc).
Qed.

Lemma reachable_opening_pnl (w : WalletPnL) :
  reachable w ->
  Forall (fun t => isClosing t = false -> t_pnl t = 0%float) (tradeHistory w).
Proof.
  induction 1 as [now initial|now oldState newState w _ IH].
  - constructor.
  - rewrite updateEntry_history. unfold JS.slice_last.
    apply Forall_drop, Forall_app. split; [exact IH|].
    apply pushedTrades_opening_pnl.
Qed.

(** X6.  In every entry that the aggregator builds, the value that the
    drawdown loop takes for a balance record is the recorded balance plus 0:
    the only trades it adds in are the opening ones, whose [pnl] is 0, so no
    unrealized or realized P&L enters the drawdown. *)
Theorem drawdown_equity_is_balance (w : WalletPnL) (record : BalanceRecord) :
  reachable w ->
  markedPnL w record = 0%float
  /\ totalValue w record = (b_balance record + 0)%float.
Proof.
  intros Hr.
  pose proof (opening_pnl_markedPnL w record (reachable_opening_pnl w Hr)) as Hm.
  split; [exact Hm|]. unfold totalValue. rewrite Hm. reflexivity.
Qed.

Lemma drawdown_equity_is_balance_witness :
  reachable Scenario.roundTrips
  /\ totalValue Scenario.roundTrips
       {| b_balance := 1000%float; b_timestamp := 39600000 |}
     = 1000%float.
Proof.
  assert (Hr : reachable Scenario.roundTrips)
    by (repeat apply reachable_update; apply reachable_new).
  split; [exact Hr|].
  rewrite (proj2 (drawdown_equity_is_balance Scenario.roundTrips _ Hr)).
  reflexivity.
Defined.

Lemma drawdownStep_not_nan (w : WalletPnL) (d : Drawdown) (record : BalanceRecord) :
  PrimFloat.is_nan (maxDrawdown d) = false ->
  PrimFloat.is_nan (maxDrawdown (drawdownStep w d record)) = false.
Proof.
  intros Hd. unfold drawdownStep.
  destruct (JS.gt (totalValue w record) (peak d)); cbn [maxDrawdown]; [exact Hd|].
  destruct (JS.gt _ (maxDrawdown d)) eqn:Hgt; [|exact Hd].
  unfold JS.gt in Hgt. exact (proj2 (ltb_numbers _ _ Hgt)).
Qed.

(** X7.  The maximum drawdown is never [NaN], whatever the entry holds: it
    starts at 0 and is replaced only by a value that compared greater. *)
Theorem max_drawdown_is_never_nan (w : WalletPnL) :
  PrimFloat.is_nan (maxDrawdownOf w) = false.
Proof.
  unfold maxDrawdownOf.
  assert (H : forall l d, PrimFloat.is_nan (maxDrawdown d) = false ->
            PrimFloat.is_nan (maxDrawdown (fold_left (drawdownStep w) l d)) = false).
  { induction l as [|r l IH]; intros d Hd; simpl; [exact Hd|].
    apply IH, drawdownStep_not_nan, Hd. }
  apply H. reflexivity.
Qed.

(** ** Winning and losing trades *)

(** X8.  No closing trade is counted both as a win and as a loss: the
    winning and the losing trades are closing trades and together they are
    no more than the closed trades (a [pnl] of 0 or [NaN] is neither). *)
Theorem wins_and_losses_are_disjoint (w : WalletPnL) :
  (length (winningTrades w) + length (losingTrades w)
   <= length (closedTrades w))%nat
  /\ Forall (fun t => isClosing t = true /\ (t_pnl t <? 0)%float = false)
            (winningTrades w)
  /\ Forall (fun t => isClosing t = true /\ JS.gt (t_pnl t) 0%float = false)
            (losingTrades w).
Proof.
  unfold winningTrades, losingTrades, closedTrades. repeat split.
  - induction (List.filter isClosing (tradeHistory w)) as [|t l IH]; simpl;
      [lia|].
    destruct (JS.gt (t_pnl t) 0%float) eqn:Hg.
    + unfold JS.gt in Hg. rewrite (proj2 (ltb_exclusive _ _ Hg)). simpl. lia.
    + destruct (t_pnl t <? 0)%float; simpl; lia.
  - rewrite List.Forall_forall. intros t Ht.
    apply List.filter_In in Ht as [Hin Hg].
    apply List.filter_In in Hin as [_ Hc]. split; [exact Hc|].
    unfold JS.gt in Hg. exact (proj2 (ltb_exclusive _ _ Hg)).
  - rewrite List.Forall_forall. intros t Ht.
    apply List.filter_In in Ht as [Hin Hl].
    apply List.filter_In in Hin as [_ Hc]. split; [exact Hc|].
    unfold JS.gt. exact (proj2 (ltb_exclusive _ _ Hl)).
Qed.

(** ** Retries *)

Lemma fetchAttempts_None {A} (transport : nat -> option A) (retries : nat) :
  forall k0,
    fetchAttempts transport retries k0 = None ->
    forall k, (k0 <= k <= k0 + retries)%nat -> transport k = None.
Proof.
  induction retries as [|r IH]; intros k0; simpl;
    destruct (transport k0) eqn:H0; try discriminate; intros Hf k Hk.
  - replace k with k0 by lia. exact H0.
  - destruct (Nat.eq_dec k k0) as [->|Hne]; [exact H0|].
    apply (IH (S k0) Hf). lia.
Qed.

Lemma fetchAttempts_Some {A} (transport : nat -> option A) (retries : nat) (d : A) :
  forall k0,
    fetchAttempts transport retries k0 = Some d ->
    exists k, (k0 <= k <= k0 + retries)%nat
              /\ transport k = Some d
              /\ forall j, (k0 <= j < k)%nat -> transport j = None.
Proof.
  induction retries as [|r IH]; intros k0; simpl;
    destruct (transport k0) eqn:H0; intros Hf; try discriminate.
  - exists k0. injection Hf as <-. repeat split; [lia|lia|exact H0|]. intros; lia.
  - exists k0. injection Hf as <-. repeat split; [lia|lia|exact H0|]. intros; lia.
  - destruct (IH (S k0) Hf) as (k & Hk & Hd & Hbefore).
    exists k. repeat split; [lia|lia|exact Hd|].
    intros j Hj. destruct (Nat.eq_dec j k0) as [->|Hne]; [exact H0|].
    apply Hbefore. lia.
Qed.

(** X9.  [fetchWithRetry] fails exactly when the cache has nothing and each
    of the [RETRY_ATTEMPTS + 1] upstream calls fails; when it succeeds, the
    data is the cached one or the answer of the first upstream call that
    did not fail. *)
Theorem fetch_retry_outcome (cfg : Config) (cached : option AccountJson)
    (transport : nat -> option AccountJson) :
  (fetchWithRetry cfg cached transport = None
   <-> cached = None
       /\ forall k, (k <= RETRY_ATTEMPTS cfg)%nat -> transport k = None)
  /\ (forall data,
        fetchWithRetry cfg cached transport = Some data ->
        cached = Some data
        \/ (cached = None
            /\ exists k, (k <= RETRY_ATTEMPTS cfg)%nat
                         /\ transport k = Some data
                         /\ forall j, (j < k)%nat -> transport j = None)).
Proof.
  unfold fetchWithRetry. split; [split|].
  - destruct cached; [discriminate|]. intros Hf. split; [reflexivity|].
    intros k Hk. apply (fetchAttempts_None _ _ 0%nat Hf). lia.
  - intros [-> Hall]. apply fetchAttempts_exhausted.
    intros k Hk. apply Hall. lia.
  - intros data. destruct cached as [c|]; [intros [= <-]; left; reflexivity|].
    intros Hs. right. split; [reflexivity|].
    destruct (fetchAttempts_Some _ _ _ 0%nat Hs) as (k & Hk & Hd & Hbefore).
    exists k. repeat split; [lia|exact Hd|]. intros j Hj. apply Hbefore. lia.
Qed.

Lemma fetch_retry_outcome_witness :
  fetchWithRetry CONFIG None (Example.flaky Example.account)
  = Some Example.account
  /\ exists k, (k <= 3)%nat
               /\ Example.flaky Example.account k = Some Example.account
               /\ forall j, (j < k)%nat -> Example.flaky Example.account j = None.
Proof.
  split; [reflexivity|].
  destruct (proj2 (fetch_retry_outcome CONFIG None (Example.flaky Example.account))
              Example.account eq_refl) as [Hc|[_ Hk]]; [discriminate Hc|].
  exact Hk.
Defined.

(** ** The snapshot that a fetch builds *)

Lemma Prim2SF_zero : Prim2SF 0%float = S754_zero false.
Proof. reflexivity. Qed.

Lemma abs_nonzero (x : float) :
  JS.strict_neq x 0%float = true ->
  JS.strict_neq (abs x) 0%float = true /\ (abs x <? 0)%float = false.
Proof.
  unfold JS.strict_neq.
  rewrite !FloatAxioms.eqb_spec, FloatAxioms.ltb_spec, FloatAxioms.abs_spec,
    Prim2SF_zero.
  unfold SFeqb, SFltb.
  destruct (Prim2SF x) as [s|s| |s m e]; simpl; intros H; try discriminate;
    try (split; reflexivity).
Qed.

Lemma obj_set_keys (obj : PositionMap) (key : string) (v : Position) :
  obj_keys (obj_set obj key v)
  = if existsb (String.eqb key) (obj_keys obj)
    then obj_keys obj else obj_keys obj ++ [key].
Proof.
  induction obj as [|[k w] rest IH]; simpl; [reflexivity|].
  rewrite (String.eqb_sym key k).
  destruct (String.eqb k key); simpl; [reflexivity|].
  rewrite IH. destruct (existsb _ _); reflexivity.
Qed.

Lemma obj_set_NoDup (obj : PositionMap) (key : string) (v : Position) :
  List.NoDup (obj_keys obj) -> List.NoDup (obj_keys (obj_set obj key v)).
Proof.
  intros Hnd. rewrite obj_set_keys.
  destruct (existsb (String.eqb key) (obj_keys obj)) eqn:He; [exact Hnd|].
  apply List.NoDup_app; [exact Hnd|repeat constructor; simpl; tauto|].
  intros x Hin [Hx|[]]. subst x.
  assert (existsb (String.eqb key) (obj_keys obj) = true); [|congruence].
  apply List.existsb_exists. exists key. split; [exact Hin|apply String.eqb_refl].
Qed.

Lemma obj_set_Forall (P : string * Position -> Prop) (obj : PositionMap)
    (key : string) (v : Position) :
  Forall P obj -> P (key, v) -> Forall P (obj_set obj key v).
Proof.
  intros Hall Hv. induction Hall as [|[k w] rest Hk Hrest IH]; simpl.
  - repeat constructor. exact Hv.
  - destruct (String.eqb_spec k key) as [->|Hne]; constructor; auto.
Qed.

(** X10.  Whatever the upstream answers, the snapshot that [fetchPositions]
    returns is keyed by symbol without duplicates, every position sits
    under its own symbol, and no position has a zero or a negative size:
    entries of size 0 are dropped and signed sizes are stored as absolute
    values. *)
Theorem fetched_snapshot_is_well_formed (address : option string)
    (response : option AccountJson) (markPrice : Z -> option float) :
  let state := fetchPositions address response markPrice in
  List.NoDup (obj_keys (positions state))
  /\ Forall (fun kv => fst kv = symbol (snd kv)
                       /\ JS.strict_neq (position (snd kv)) 0%float = true
                       /\ (position (snd kv) <? 0)%float = false)
            (positions state).
Proof.
  assert (Hempty : List.NoDup (obj_keys (positions emptyState))
                   /\ Forall (fun kv => fst kv = symbol (snd kv)
                       /\ JS.strict_neq (position (snd kv)) 0%float = true
                       /\ (position (snd kv) <? 0)%float = false)
                      (positions emptyState))
    by (split; constructor).
  unfold fetchPositions.
  destruct address; [|exact Hempty].
  destruct response as [json|]; [|exact Hempty].
  destruct (accounts json) as [|acc rest]; [exact Hempty|].
  destruct (acc_positions acc) as [raws|]; [|exact Hempty].
  cbn [positions].
  assert (Hbuilt : Forall (fun v => JS.strict_neq (position v) 0%float = true
                                    /\ (position v <? 0)%float = false)
            (map (buildPosition markPrice)
               (List.filter
                  (fun pos => JS.strict_neq (raw_position pos) 0%float) raws))).
  { rewrite List.Forall_forall. intros v Hv.
    apply List.in_map_iff in Hv as (raw & <- & Hraw).
    apply List.filter_In in Hraw as [_ Hnz].
    cbn [buildPosition position]. apply abs_nonzero. exact Hnz. }
  revert Hbuilt.
  generalize (map (buildPosition markPrice)
               (List.filter
                  (fun pos => JS.strict_neq (raw_position pos) 0%float) raws)).
  intros built.
  assert (Hstart : List.NoDup (obj_keys ([] : PositionMap))
                   /\ Forall (fun kv : string * Position => fst kv = symbol (snd kv)
                       /\ JS.strict_neq (position (snd kv)) 0%float = true
                       /\ (position (snd kv) <? 0)%float = false)
                      ([] : PositionMap))
    by (split; constructor).
  revert Hstart. generalize ([] : PositionMap).
  induction built as [|v built IH]; intros obj Hobj Hbuilt; simpl;
    [exact Hobj|].
  inversion Hbuilt as [|? ? Hv Hrest]; subst.
  apply IH; [|exact Hrest]. destruct Hobj as [Hnd Hall]. split.
  - apply obj_set_NoDup. exact Hnd.
  - apply obj_set_Forall; [exact Hall|]. simpl. tauto.
Qed.

(** ** Chart markers and trade records *)



(** ** The trade event ledger *)

Lemma pruneWallet_lookup (nowSec : float) (wallet : gmap string (list TradeEvent))
    (s : string) :
  default [] (pruneWallet nowSec wallet !! s)
  = List.filter (fresh nowSec) (default [] (wallet !! s)).
Proof.
  unfold pruneWallet. rewrite lookup_omap.
  destruct (wallet !! s) as [events|]; simpl; [|reflexivity].
  destruct (List.filter (fresh nowSec) events); reflexivity.
Qed.

(** X13.  After the hourly cleanup every list reads as its events younger
    than 24 h, in their order; no wallet is left without a symbol, no symbol
    with an empty list. *)
Theorem hourly_cleanup_keeps_fresh_events (nowSec : float)
    (store : gmap string (gmap string (list TradeEvent))) :
  (forall a s,
      eventsOf (pruneEvents nowSec store) a s
      = List.filter (fresh nowSec) (eventsOf store a s))
  /\ (forall a wallet,
         pruneEvents nowSec store !! a = Some wallet ->
         wallet <> ∅
         /\ forall s events, wallet !! s = Some events -> events <> []).
Proof.
  split.
  - intros a s. unfold eventsOf, pruneEvents. rewrite lookup_omap.
    destruct (store !! a) as [wallet|]; simpl; [|reflexivity].
    destruct (decide (pruneWallet nowSec wallet = ∅)) as [He|Hne]; simpl.
    + rewrite <- pruneWallet_lookup, He, lookup_empty. reflexivity.
    + apply pruneWallet_lookup.
  - intros a wallet. unfold pruneEvents. rewrite lookup_omap.
    destruct (store !! a) as [w0|]; simpl; [|discriminate].
    destruct (decide (pruneWallet nowSec w0 = ∅)) as [He|Hne]; simpl;
      [discriminate|].
    intros [= <-]. split; [exact Hne|].
    intros s events. unfold pruneWallet. rewrite lookup_omap.
    destruct (w0 !! s) as [l|]; simpl; [|discriminate].
    destruct (List.filter (fresh nowSec) l); [discriminate|].
    intros [= <-]. discriminate.
Qed.

Lemma hourly_cleanup_keeps_fresh_events_witness :
  let stale := {| ev_time := 100%float; ev_price := 2000%float; ev_side := buy |} in
  let recent := {| ev_time := 90000%float; ev_price := 2100%float; ev_side := sell |} in
  let store : gmap string (gmap string (list TradeEvent)) :=
    {[ "0xA" := {[ "ETH" := [stale; recent] ]} ]} in
  eventsOf (pruneEvents 90001%float store) "0xA" "ETH" = [recent]
  /\ pruneEvents 90001%float store !! "0xA" = Some {[ "ETH" := [recent] ]}
  /\ ({[ "ETH" := [recent] ]} : gmap string (list TradeEvent)) <> ∅.
Proof.
  intros stale recent store.
  destruct (hourly_cleanup_keeps_fresh_events 90001%float store) as [Hread Hfull].
  assert (Hl : pruneEvents 90001%float store !! "0xA" = Some {[ "ETH" := [recent] ]}).
  { unfold pruneEvents, store. rewrite lookup_omap, lookup_singleton_eq. simpl.
    unfold pruneWallet. rewrite omap_singleton. simpl.
    destruct (decide _) as [He|_]; [|reflexivity].
    apply (f_equal (fun m => m !! "ETH")) in He.
    rewrite lookup_singleton_eq, lookup_empty in He. discriminate He. }
  split; [|split; [exact Hl|exact (proj1 (Hfull _ _ Hl))]].
  rewrite Hread. unfold eventsOf, store.
  rewrite lookup_singleton_eq. simpl. rewrite lookup_singleton_eq. reflexivity.
Defined.

(** ** Watchlist commands *)

Lemma prop_set_length {V} (obj : list (string * V)) (key : string) (v : V) :
  (length (prop_set obj key v) <= S (length obj))%nat.
Proof.
  induction obj as [|[k w] rest IH]; simpl; [lia|].
  destruct (String.eqb k key); simpl; lia.
Qed.

Lemma prop_get_set {V} (obj : list (string * V)) (key : string) (v : V) :
  prop_get (prop_set obj key v) key = Some v.
Proof.
  induction obj as [|[k w] rest IH]; simpl.
  - rewrite String.eqb_refl. reflexivity.
  - destruct (String.eqb k key) eqn:He; simpl; rewrite He; [reflexivity|exact IH].
Qed.

Lemma prop_get_delete {V} (obj : list (string * V)) (key : string) :
  prop_get (prop_delete obj key) key = None.
Proof.
  unfold prop_delete. induction obj as [|[k w] rest IH]; simpl; [reflexivity|].
  destruct (String.eqb k key) eqn:He; simpl; [exact IH|].
  rewrite He. exact IH.
Qed.

(** X15.  The [add] command never takes the list of a user who is not
    whitelisted beyond [MAX_ADDRESSES_PER_USER] addresses.  When it adds an
    address, the list holds it under the given label, the fetched state
    becomes its snapshot and a P&L entry that already exists is kept as it
    is; when it refuses, nothing changes. *)
Theorem add_respects_address_limit (cfg : Config) (whitelist : list Z)
    (checksum : string -> option string) (now : Z) (userId : Z)
    (input : list string) (initialState : Snapshot) (bot : Bot) :
  isWhitelisted whitelist userId = false ->
  (length (default [] (bot_watchlist bot !! userId))
   <= MAX_ADDRESSES_PER_USER cfg)%nat ->
  let result := addCommand cfg whitelist checksum now userId input initialState bot in
  (length (default [] (bot_watchlist (snd result) !! userId))
   <= MAX_ADDRESSES_PER_USER cfg)%nat
  /\ (forall address,
         fst result = Added address ->
         is_Some (prop_get (default [] (bot_watchlist (snd result) !! userId))
                           address)
         /\ previousStates (bot_world (snd result)) !! address = Some initialState
         /\ forall w, walletPnL (bot_world bot) !! address = Some w ->
                      walletPnL (bot_world (snd result)) !! address = Some w)
  /\ ((forall address, fst result <> Added address) -> snd result = bot).
Proof.
  intros Hw Hlen. unfold addCommand, getUserLimits. rewrite Hw.
  cbn [maxAddresses].
  set (mine := default [] (bot_watchlist bot !! userId)) in *.
  destruct input as [|first others]; cbn zeta;
    [repeat split; [exact Hlen|discriminate|discriminate|discriminate]|].
  destruct (checksum first) as [address|];
    [|repeat split; [exact Hlen|discriminate|discriminate|discriminate]].
  destruct (Nat.leb_spec (MAX_ADDRESSES_PER_USER cfg) (length mine))
    as [Hfull|Hroom];
    [repeat split; [exact Hlen|discriminate|discriminate|discriminate]|].
  destruct (labelled mine address);
    [repeat split; [exact Hlen|discriminate|discriminate|discriminate]|].
  cbn [fst snd bot_watchlist bot_world previousStates walletPnL].
  rewrite lookup_insert_eq. cbn [default from_option]. unfold id. split; [|split].
  - eapply Nat.le_trans; [apply prop_set_length|]. lia.
  - intros a [= <-]. split; [|split].
    + rewrite prop_get_set. eexists. reflexivity.
    + apply lookup_insert_eq.
    + intros w Hentry. unfold initializeWalletPnL. rewrite Hentry. exact Hentry.
  - intros Hnot. exfalso. exact (Hnot address eq_refl).
Qed.

Lemma add_respects_address_limit_witness :
  let bot := {| bot_watchlist := ∅;
                bot_world := {| previousStates := ∅; walletPnL := ∅ |};
                bot_events := ∅ |} in
  let result :=
    addCommand CONFIG [7] (fun s => Some s) 0 42 [Scenario.wallet; "main"]
               Scenario.btcOpen bot in
  isWhitelisted [7] 42 = false
  /\ (length (default [] (bot_watchlist bot !! 42%Z)) <= 5)%nat
  /\ (length (default [] (bot_watchlist (snd result) !! 42%Z)) <= 5)%nat
  /\ fst result = Added Scenario.wallet.
Proof.
  intros bot result.
  assert (Hlen : (length (default [] (bot_watchlist bot !! 42%Z)) <= 5)%nat).
  { unfold bot. cbn [bot_watchlist]. rewrite lookup_empty. simpl. lia. }
  split; [reflexivity|]. split; [exact Hlen|]. split.
  - exact (proj1 (add_respects_address_limit CONFIG [7] (fun s => Some s) 0 42
                    [Scenario.wallet; "main"] Scenario.btcOpen bot eq_refl Hlen)).
  - unfold result, addCommand, bot. cbn [bot_watchlist].
    rewrite lookup_empty. reflexivity.
Defined.

Lemma stillTracked_true (watchlist : gmap Z Labels) (address : string) :
  stillTracked watchlist address = true
  <-> exists u labels, watchlist !! u = Some labels /\ labelled labels address = true.
Proof.
  unfold stillTracked. rewrite List.existsb_exists. split.
  - intros ([u labels] & Hin & Hl). exists u, labels. split; [|exact Hl].
    apply elem_of_map_to_list, list_elem_of_In. exact Hin.
  - intros (u & labels & Hl & Hlab). exists (u, labels). split; [|exact Hlab].
    apply list_elem_of_In, elem_of_map_to_list. exact Hl.
Qed.

Lemma labelled_held (labels : Labels) (address : string) :
  labelled labels address = true -> is_Some (prop_get labels address).
Proof.
  unfold labelled. destruct (prop_get labels address); [eauto|discriminate].
Qed.

(** X14.  When the [delete] command removes an address from a user's list,
    the address is gone from that list and the data of every other address
    is untouched.  If no list holds the address any more, its snapshot, its
    P&L entry and its trade events are deleted; if some list holds it under
    a label, all three are kept. *)
Theorem delete_forgets_unwatched_address (userId : Z) (input : string)
    (bot bot' : Bot) (addr : string) :
  deleteCommand userId input bot = (Removed addr, bot') ->
  prop_get (default [] (bot_watchlist bot' !! userId)) addr = None
  /\ (forall b, b <> addr ->
        previousStates (bot_world bot') !! b = previousStates (bot_world bot) !! b
        /\ walletPnL (bot_world bot') !! b = walletPnL (bot_world bot) !! b
        /\ bot_events bot' !! b = bot_events bot !! b)
  /\ ((forall u labels, bot_watchlist bot' !! u = Some labels ->
                        prop_get labels addr = None) ->
      previousStates (bot_world bot') !! addr = None
      /\ walletPnL (bot_world bot') !! addr = None
      /\ bot_events bot' !! addr = None)
  /\ ((exists u labels, bot_watchlist bot' !! u = Some labels
                        /\ labelled labels addr = true) ->
      bot_world bot' = bot_world bot /\ bot_events bot' = bot_events bot).
Proof.
  unfold deleteCommand. destruct (String.eqb input ""); [discriminate|].
  destruct (List.find _ _) as [[a lbl]|]; [|discriminate].
  destruct (stillTracked _ a) eqn:Hst; intros [= <- <-];
    cbn [bot_watchlist bot_world bot_events previousStates walletPnL].
  - rewrite lookup_insert_eq. cbn [default from_option]. unfold id.
    split; [apply prop_get_delete|]. split; [intros b Hb; auto|]. split.
    + intros Hnone. exfalso.
      apply stillTracked_true in Hst as (u & labels & Hl & Hlab).
      apply labelled_held in Hlab as [x Hx].
      rewrite (Hnone u labels Hl) in Hx. discriminate.
    + intros _. split; reflexivity.
  - rewrite lookup_insert_eq. cbn [default from_option]. unfold id, cleanupWalletEvents.
    split; [apply prop_get_delete|]. split; [|split].
    + intros b Hb. rewrite !lookup_delete_ne by congruence. auto.
    + intros _. rewrite !lookup_delete_eq. auto.
    + intros Hex. apply stillTracked_true in Hex.
      destruct (eq_true_false_abs _ Hex Hst).
Qed.

Lemma delete_forgets_unwatched_address_witness :
  let bot := {| bot_watchlist := {[ 42 := [(Scenario.wallet, Some "main")] ]};
                bot_world := Scenario.tracking Scenario.btcOpen;
                bot_events := ∅ |} in
  let bot' := snd (deleteCommand 42 "main" bot) in
  deleteCommand 42 "main" bot = (Removed Scenario.wallet, bot')
  /\ prop_get (default [] (bot_watchlist bot' !! 42)) Scenario.wallet = None.
Proof.
  intros bot bot'.
  assert (H : deleteCommand 42 "main" bot = (Removed Scenario.wallet, bot')).
  { unfold bot', deleteCommand, bot. cbn [bot_watchlist String.eqb Ascii.eqb].
    rewrite lookup_singleton_eq. cbn -[stillTracked].
    destruct (stillTracked _ _); reflexivity. }
  split; [exact H|].
  exact (proj1 (delete_forgets_unwatched_address 42 "main" bot bot'
                  Scenario.wallet H)).
Defined.

(** ** The monitor, address by address *)

Lemma updateWalletPnL_other (now : Z) (address b : string)
    (oldState newState : Snapshot) (store : gmap string WalletPnL) :
  b <> address ->
  updateWalletPnL now address oldState newState store !! b = store !! b.
Proof.
  intros Hne. unfold updateWalletPnL, initializeWalletPnL.
  destruct (store !! address) as [w|] eqn:Hw.
  - rewrite Hw. apply lookup_insert_ne. congruence.
  - rewrite lookup_insert_eq, !lookup_insert_ne by congruence. reflexivity.
Qed.

(** X17.  The monitor step of one address never changes the snapshot or the
    P&L entry of another address; when the address has no snapshot yet, the
    step stores the fetched state and leaves the whole P&L store alone. *)
Theorem monitor_step_is_local (now : Z) (address : string) (newState : Snapshot)
    (dispatched : bool) (world : World) :
  (forall b, b <> address ->
     previousStates (monitorAddress now address newState dispatched world) !! b
     = previousStates world !! b
     /\ walletPnL (monitorAddress now address newState dispatched world) !! b
        = walletPnL world !! b)
  /\ (previousStates world !! address = None ->
      previousStates (monitorAddress now address newState dispatched world)
        !! address = Some newState
      /\ walletPnL (monitorAddress now address newState dispatched world)
         = walletPnL world).
Proof.
  unfold monitorAddress. split.
  - intros b Hb.
    destruct (previousStates world !! address) as [oldState|];
      [destruct (comparePositions oldState newState)|];
      cbn [previousStates walletPnL].
    + rewrite lookup_insert_ne by congruence. auto.
    + rewrite updateWalletPnL_other by exact Hb.
      destruct dispatched; [rewrite lookup_insert_ne by congruence|]; auto.
    + rewrite lookup_insert_ne by congruence. auto.
  - intros ->. cbn [previousStates walletPnL].
    rewrite lookup_insert_eq. auto.
Qed.

Lemma monitor_step_is_local_witness :
  let world := {| previousStates := {[ "0xB" := Scenario.eth10 ]};
                  walletPnL := ∅ |} in
  "0xB" <> Scenario.wallet
  /\ previousStates world !! Scenario.wallet = None
  /\ previousStates (monitorAddress 15000 Scenario.wallet Scenario.btcOpen true world)
       !! "0xB" = Some Scenario.eth10
  /\ walletPnL (monitorAddress 15000 Scenario.wallet Scenario.btcOpen true world)
     = ∅.
Proof.
  intros world.
  assert (Hne : "0xB" <> Scenario.wallet) by discriminate.
  assert (Hnone : previousStates world !! Scenario.wallet = None).
  { unfold world. cbn [previousStates]. apply lookup_singleton_ne. exact Hne. }
  destruct (monitor_step_is_local 15000 Scenario.wallet Scenario.btcOpen true world)
    as [Hother Hfirst].
  split; [exact Hne|]. split; [exact Hnone|]. split.
  - rewrite (proj1 (Hother "0xB" Hne)). apply lookup_singleton_eq.
  - exact (proj2 (Hfirst Hnone)).
Defined.

(** ** Who watches what *)

Lemma pushWatcher_keys (m : list (string * list (Z * string))) (addr : string)
    (user : Z * string) :
  map fst (pushWatcher m addr user)
  = if existsb (String.eqb addr) (map fst m) then map fst m
    else map fst m ++ [addr].
Proof.
  induction m as [|[k users] rest IH]; simpl; [reflexivity|].
  rewrite (String.eqb_sym addr k).
  destruct (String.eqb k addr); simpl; [reflexivity|].
  rewrite IH. destruct (existsb _ _); reflexivity.
Qed.

Lemma pushWatcher_NoDup (m : list (string * list (Z * string))) (addr : string)
    (user : Z * string) :
  List.NoDup (map fst m) -> List.NoDup (map fst (pushWatcher m addr user)).
Proof.
  intros Hnd. rewrite pushWatcher_keys.
  destruct (existsb (String.eqb addr) (map fst m)) eqn:He; [exact Hnd|].
  apply List.NoDup_app; [exact Hnd|repeat constructor; simpl; tauto|].
  intros x Hin [Hx|[]]. subst x.
  assert (existsb (String.eqb addr) (map fst m) = true); [|congruence].
  apply List.existsb_exists. exists addr. split; [exact Hin|apply String.eqb_refl].
Qed.

Lemma pushWatcher_In_keys (m : list (string * list (Z * string)))
    (addr : string) (user : Z * string) (a : string) :
  In a (map fst (pushWatcher m addr user)) <-> In a (map fst m) \/ a = addr.
Proof.
  rewrite pushWatcher_keys.
  destruct (existsb (String.eqb addr) (map fst m)) eqn:He.
  - split; [auto|]. intros [H | ->]; [exact H|].
    apply List.existsb_exists in He as (x & Hx & Heq).
    apply String.eqb_eq in Heq. subst x. exact Hx.
  - rewrite in_app_iff. simpl. intuition congruence.
Qed.

Lemma pushWatcher_watches (m : list (string * list (Z * string)))
    (addr : string) (user : Z * string) :
  watches (pushWatcher m addr user) addr user
  /\ forall a u, watches m a u -> watches (pushWatcher m addr user) a u.
Proof.
  unfold watches. induction m as [|[k users] rest [IHnew IHold]]; simpl.
  - split.
    + exists [user]. split; left; reflexivity.
    + intros a u (us & [] & _).
  - destruct (String.eqb_spec k addr) as [->|Hne].
    + split.
      * exists (users ++ [user]). split; [left; reflexivity|].
        apply in_or_app. right. left. reflexivity.
      * intros a u (us & [Heq|Hin] & Hu).
        -- injection Heq as <- <-. exists (users ++ [user]).
           split; [left; reflexivity|apply in_or_app; left; exact Hu].
        -- exists us. split; [right; exact Hin|exact Hu].
    + split.
      * destruct IHnew as (us & Hin & Hu). exists us.
        split; [right; exact Hin|exact Hu].
      * intros a u (us & [Heq|Hin] & Hu).
        -- exists us. split; [left; exact Heq|exact Hu].
        -- destruct (IHold a u) as (us' & Hin' & Hu'); [exists us; auto|].
           exists us'. split; [right; exact Hin'|exact Hu'].
Qed.

Section Watchers.

Variable entry : Z * Labels.

Abbreviation push :=
  (fun m addr => pushWatcher m addr (fst entry, labelOrWallet (snd entry) addr)).

Lemma user_fold (addrs : list string) :
  forall m,
    List.NoDup (map fst m) ->
    let m' := fold_left push addrs m in
    List.NoDup (map fst m')
    /\ (forall a, In a (map fst m') <-> In a (map fst m) \/ In a addrs)
    /\ (forall a u, watches m a u -> watches m' a u)
    /\ (forall a, In a addrs ->
          watches m' a (fst entry, labelOrWallet (snd entry) a)).
Proof.
  induction addrs as [|addr rest IH]; intros m Hnd; simpl.
  - split; [exact Hnd|]. split; [intros a; tauto|]. split; [auto|].
    intros a [].
  - destruct (IH (push m addr) (pushWatcher_NoDup m addr _ Hnd))
      as (Hnd' & Hkeys & Hold & Hnew).
    pose proof (pushWatcher_watches m addr
                  (fst entry, labelOrWallet (snd entry) addr)) as [Hpushed Hkept].
    split; [exact Hnd'|]. split; [|split].
    + intros a. rewrite Hkeys, pushWatcher_In_keys. intuition congruence.
    + intros a u H. apply Hold, Hkept, H.
    + intros a [<-|H]; [apply Hold, Hpushed|apply Hnew, H].
Qed.

End Watchers.

(** X16.  The map that the monitor builds from the watchlist has every
    watched address exactly once, however many users watch it, has no other
    address, and lists under each address every user that watches it. *)
Theorem each_address_is_polled_once (entries : list (Z * Labels)) :
  List.NoDup (map fst (addressToUsers entries))
  /\ (forall addr,
         In addr (map fst (addressToUsers entries))
         <-> exists userId, In (userId, addr) (watchPairs entries))
  /\ (forall userId addr,
         In (userId, addr) (watchPairs entries) ->
         exists label, watches (addressToUsers entries) addr (userId, label)).
Proof.
  unfold addressToUsers.
  assert (H : forall m,
            List.NoDup (map fst m) ->
            let m' := fold_left
                        (fun m entry =>
                           fold_left
                             (fun m addr =>
                                pushWatcher m addr
                                  (fst entry, labelOrWallet (snd entry) addr))
                             (map fst (snd entry)) m)
                        entries m in
            List.NoDup (map fst m')
            /\ (forall a, In a (map fst m')
                          <-> In a (map fst m)
                              \/ exists u, In (u, a) (watchPairs entries))
            /\ (forall a u, watches m a u -> watches m' a u)
            /\ (forall u a, In (u, a) (watchPairs entries) ->
                  exists label, watches m' a (u, label))).
  { induction entries as [|entry rest IH]; intros m Hnd; simpl.
    - split; [exact Hnd|]. split; [|split; [auto|intros u a []]].
      intros a. split; [auto|]. intros [H|[u []]]. exact H.
    - destruct (user_fold entry (map fst (snd entry)) m Hnd)
        as (Hnd1 & Hkeys1 & Hold1 & Hnew1).
      destruct (IH _ Hnd1) as (Hnd2 & Hkeys2 & Hold2 & Hnew2).
      split; [exact Hnd2|]. split; [|split].
      + intros a. split.
        * intros H. apply Hkeys2 in H as [H|[u H]].
          -- apply Hkeys1 in H as [H|H]; [auto|].
             right. exists (fst entry). apply in_or_app. left.
             apply List.in_map_iff. exists a. auto.
          -- right. exists u. apply in_or_app. right. exact H.
        * intros [H|[u H]]; apply Hkeys2.
          -- left. apply Hkeys1. auto.
          -- apply in_app_or in H as [H|H].
             ++ left. apply Hkeys1. right.
                apply List.in_map_iff in H as (x & [= _ <-] & Hx). exact Hx.
             ++ right. exists u. exact H.
      + intros a u H. apply Hold2, Hold1, H.
      + intros u a H. apply in_app_or in H as [H|H].
        * apply List.in_map_iff in H as (x & [= <- <-] & Hx).
          exists (labelOrWallet (snd entry) x). apply Hold2, Hnew1, Hx.
        * apply Hnew2, H. }
  destruct (H [] (List.NoDup_nil _)) as (Hnd & Hkeys & _ & Hnew).
  split; [exact Hnd|]. split; [|exact Hnew].
  intros addr. rewrite Hkeys. simpl. tauto.
Qed.

Lemma each_address_is_polled_once_witness :
  let entries :=
    [ (42, [(Scenario.wallet, Some "main"); ("0xB", None)]);
      (43, [(Scenario.wallet, None)]) ] in
  In (43, Scenario.wallet) (watchPairs entries)
  /\ map fst (addressToUsers entries) = [Scenario.wallet; "0xB"]
  /\ exists label, watches (addressToUsers entries) Scenario.wallet (43, label).
Proof.
  intros entries.
  assert (H : In (43, Scenario.wallet) (watchPairs entries))
    by (simpl; tauto).
  split; [exact H|]. split; [reflexivity|].
  exact (proj2 (proj2 (each_address_is_polled_once entries)) 43 Scenario.wallet H).
Defined.
(** ** The records of one update and what the entry receives *)

Lemma ltb_neq (a b : float) :
  (a <? b)%float = true -> JS.strict_neq a b = true.
Proof.
  unfold JS.strict_neq.
  rewrite FloatAxioms.ltb_spec, FloatAxioms.eqb_spec. unfold SFltb, SFeqb.
  destruct (SFcompare (Prim2SF a) (Prim2SF b)) as [[]|]; simpl;
    intros H; try discriminate; reflexivity.
Qed.

Lemma tradeStep_realized (now : Z) (oldP newP : PositionMap) (w : WalletPnL)
    (sym : string) :
  realizedPnL (tradeStep now oldP newP w sym)
  = fold_left realize
      (tradeHistory (tradeStep now oldP newP (newWalletPnL 0 0%float) sym))
      (realizedPnL w).
Proof.
  unfold tradeStep.
  destruct (obj_get oldP sym) as [o|], (obj_get newP sym) as [n|];
    try reflexivity.
  destruct (JS.strict_neq (position o) (position n)); [|reflexivity].
  destruct (JS.gt (position n) (position o)); reflexivity.
Qed.

Lemma loop_realized (now : Z) (oldP newP : PositionMap) (syms : list string) :
  forall w,
    realizedPnL (fold_left (tradeStep now oldP newP) syms w)
    = fold_left realize
        (tradeHistory (fold_left (tradeStep now oldP newP) syms
                                 (newWalletPnL 0 0%float)))
        (realizedPnL w).
Proof.
  induction syms as [|s l IH]; intros w; simpl; [reflexivity|].
  rewrite (IH (tradeStep now oldP newP w s)).
  rewrite (loop_history now oldP newP l (tradeStep now oldP newP _ s)).
  rewrite fold_left_app, tradeStep_realized. reflexivity.
Qed.

(** What [updateWalletPnL] leaves in the entry, from the records it
    pushes. *)
Lemma updateEntry_receives (now : Z) (oldState newState : Snapshot)
    (w : WalletPnL) :
  tradeHistory (updateEntry now oldState newState w)
  = JS.slice_last 1000 (tradeHistory w ++ pushedTrades now oldState newState)
  /\ realizedPnL (updateEntry now oldState newState w)
     = fold_left realize (pushedTrades now oldState newState) (realizedPnL w)
  /\ trades (updateEntry now oldState newState w)
     = (trades w
        + length (List.filter isClosing (pushedTrades now oldState newState)))%nat.
Proof.
  split; [apply updateEntry_history|]. split.
  - unfold updateEntry, pushedTrades. cbn [settle realizedPnL].
    apply loop_realized.
  - unfold updateEntry, pushedTrades. cbn [settle trades]. apply loop_trades.
Qed.

(** A record that is the only one about its symbol stands once among the
    pushed records. *)
Lemma tradesOf_split (sym : string) (trade : Trade) (pushed : list Trade) :
  tradesOf sym pushed = [trade] ->
  exists before after,
    pushed = before ++ trade :: after
    /\ tradesOf sym before = [] /\ tradesOf sym after = [].
Proof.
  unfold tradesOf. induction pushed as [|t l IH]; simpl; [discriminate|].
  destruct (String.eqb (t_symbol t) sym) eqn:Ht.
  - intros [= -> Hl]. exists [], l. simpl. auto.
  - intros H. destruct (IH H) as (before & after & -> & Hb & Ha).
    exists (t :: before), after. simpl. rewrite Ht. auto.
Qed.

(** The entries after an update that pushes a closing record about [sym]
    as its only record about [sym]: the record is in the history that is
    then capped, its [pnl] is added to [realizedPnL] at its place among the
    pushed records, and it is one of the closing records counted. *)
Lemma closing_record_received (now : Z) (oldState newState : Snapshot)
    (sym : string) (trade : Trade) :
  tradesOf sym (pushedTrades now oldState newState) = [trade] ->
  isClosing trade = true ->
  exists before after,
    pushedTrades now oldState newState = before ++ trade :: after
    /\ tradesOf sym before = [] /\ tradesOf sym after = []
    /\ forall w,
         tradeHistory (updateEntry now oldState newState w)
         = JS.slice_last 1000 (tradeHistory w ++ before ++ trade :: after)
         /\ realizedPnL (updateEntry now oldState newState w)
            = fold_left realize after
                (fold_left realize before (realizedPnL w) + t_pnl trade)%float
         /\ trades (updateEntry now oldState newState w)
            = (trades w + length (List.filter isClosing before)
               + 1 + length (List.filter isClosing after))%nat.
Proof.
  intros Hone Hclosing.
  destruct (tradesOf_split _ _ _ Hone) as (before & after & Hp & Hb & Ha).
  exists before, after.
  split; [exact Hp|]. split; [exact Hb|]. split; [exact Ha|]. intros w.
  destruct (updateEntry_receives now oldState newState w) as (Hh & Hr & Ht).
  rewrite Hp in Hh, Hr, Ht. split; [exact Hh|]. split.
  - rewrite Hr, fold_left_app. simpl. unfold realize at 2.
    rewrite Hclosing. reflexivity.
  - rewrite Ht, List.filter_app, length_app. simpl. rewrite Hclosing.
    simpl. lia.
Qed.

(** The same for a record that is not a closing one: it is in the history,
    and neither [realizedPnL] nor [trades] takes anything from it. *)
Lemma opening_record_received (now : Z) (oldState newState : Snapshot)
    (sym : string) (trade : Trade) :
  tradesOf sym (pushedTrades now oldState newState) = [trade] ->
  isClosing trade = false ->
  exists before after,
    pushedTrades now oldState newState = before ++ trade :: after
    /\ tradesOf sym before = [] /\ tradesOf sym after = []
    /\ forall w,
         tradeHistory (updateEntry now oldState newState w)
         = JS.slice_last 1000 (tradeHistory w ++ before ++ trade :: after)
         /\ realizedPnL (updateEntry now oldState newState w)
            = fold_left realize after (fold_left realize before (realizedPnL w))
         /\ trades (updateEntry now oldState newState w)
            = (trades w + length (List.filter isClosing before)
               + length (List.filter isClosing after))%nat.
Proof.
  intros Hone Hopening.
  destruct (tradesOf_split _ _ _ Hone) as (before & after & Hp & Hb & Ha).
  exists before, after.
  split; [exact Hp|]. split; [exact Hb|]. split; [exact Ha|]. intros w.
  destruct (updateEntry_receives now oldState newState w) as (Hh & Hr & Ht).
  rewrite Hp in Hh, Hr, Ht. split; [exact Hh|]. split.
  - rewrite Hr, fold_left_app. simpl. unfold realize at 2.
    rewrite Hopening. reflexivity.
  - rewrite Ht, List.filter_app, length_app. simpl. rewrite Hopening. lia.
Qed.

(** When the update pushes one record only. *)
Lemma single_record_received (now : Z) (oldState newState : Snapshot)
    (trade : Trade) (w : WalletPnL) :
  pushedTrades now oldState newState = [trade] ->
  tradeHistory (updateEntry now oldState newState w)
  = JS.slice_last 1000 (tradeHistory w ++ [trade])
  /\ realizedPnL (updateEntry now oldState newState w)
     = realize (realizedPnL w) trade
  /\ trades (updateEntry now oldState newState w)
     = (trades w + if isClosing trade then 1 else 0)%nat.
Proof.
  intros Hp.
  destruct (updateEntry_receives now oldState newState w) as (Hh & Hr & Ht).
  rewrite Hp in Hh, Hr, Ht. split; [exact Hh|]. split; [exact Hr|].
  rewrite Ht. simpl. destruct (isClosing trade); reflexivity.
Qed.

(** ** Closing and reducing a position *)

(** C2. For snapshots keyed by market symbols and a symbol that the old
    snapshot holds and the new one does not, [updateWalletPnL] pushes
    exactly one record about that symbol, the [Close] record of the old
    position, whose [pnl] is the old position's [unrealized_pnl] (read
    through [|| 0], which on a number changes at most the sign of a zero).
    The entry receives it: the record stands, at its place among the
    records pushed, in the history (which is then cut to its last 1000),
    its [pnl] is added to [realizedPnL] there, and it is counted once in
    [trades]; when it is the only record pushed, [realizedPnL] grows by
    exactly that [pnl] and [trades] by one. *)
Theorem close_realizes_unrealized_pnl (now : Z) (oldState newState : Snapshot)
    (sym : string) (oldP : Position) :
  plainKeys (positions oldState) ->
  plainKeys (positions newState) ->
  obj_get (positions oldState) sym = Some oldP ->
  obj_get (positions newState) sym = None ->
  let trade := closeTrade now sym oldP in
  tradesOf sym (pushedTrades now oldState newState) = [trade]
  /\ t_type trade = Close
  /\ t_pnl trade = JS.or_num (unrealized_pnl oldP) 0%float
  /\ (PrimFloat.is_nan (unrealized_pnl oldP) = false ->
      (t_pnl trade =? unrealized_pnl oldP)%float = true)
  /\ (exists before after,
        pushedTrades now oldState newState = before ++ trade :: after
        /\ tradesOf sym before = [] /\ tradesOf sym after = []
        /\ forall w,
             tradeHistory (updateEntry now oldState newState w)
             = JS.slice_last 1000 (tradeHistory w ++ before ++ trade :: after)
             /\ realizedPnL (updateEntry now oldState newState w)
                = fold_left realize after
                    (fold_left realize before (realizedPnL w) + t_pnl trade)%float
             /\ trades (updateEntry now oldState newState w)
                = (trades w + length (List.filter isClosing before)
                   + 1 + length (List.filter isClosing after))%nat)
  /\ (forall w,
        pushedTrades now oldState newState = [trade] ->
        tradeHistory (updateEntry now oldState newState w)
        = JS.slice_last 1000 (tradeHistory w ++ [trade])
        /\ realizedPnL (updateEntry now oldState newState w)
           = (realizedPnL w + t_pnl trade)%float
        /\ trades (updateEntry now oldState newState w) = S (trades w))
  /\ (forall w,
        let w' := tradeStep now (positions oldState) (positions newState) w sym in
        tradeHistory w' = tradeHistory w ++ [trade]
        /\ realizedPnL w' = (realizedPnL w + t_pnl trade)%float
        /\ trades w' = S (trades w)).
Proof.
  intros _ _ Hold Hnew trade.
  assert (Hone : tradesOf sym (pushedTrades now oldState newState) = [trade]).
  { rewrite pushedTrades_symbol by (eapply allSymbols_old; exact Hold).
    unfold tradeStep. rewrite Hold, Hnew. reflexivity. }
  split; [exact Hone|]. split; [reflexivity|]. split; [reflexivity|].
  split; [intros Hnan; apply or_num_zero_eqb; exact Hnan|].
  split; [exact (closing_record_received now oldState newState sym trade Hone eq_refl)|].
  split.
  - intros w Hp.
    destruct (single_record_received now oldState newState trade w Hp)
      as (Hh & Hr & Ht).
    split; [exact Hh|]. split; [exact Hr|]. rewrite Ht. simpl. lia.
  - intros w. unfold tradeStep. rewrite Hold, Hnew. simpl.
    split; [reflexivity|]. split; reflexivity.
Qed.

(** The full lifecycle of the specification: a long BTC position with 200
    of unrealized P&L disappears; the entry has one record more, a [Close]
    with [pnl] 200, 200 more of realized P&L and one trade more. *)
Lemma close_realizes_unrealized_pnl_witness :
  plainKeys (positions Scenario.btcOpen)
  /\ plainKeys (positions Scenario.flat)
  /\ obj_get (positions Scenario.btcOpen) "BTC" = Some Scenario.btcLong
  /\ obj_get (positions Scenario.flat) "BTC" = None
  /\ tradeHistory (updateEntry 5 Scenario.btcOpen Scenario.flat
                     (newWalletPnL 0 1000%float))
     = [closeTrade 5 "BTC" Scenario.btcLong]
  /\ t_pnl (closeTrade 5 "BTC" Scenario.btcLong) = 200%float
  /\ realizedPnL (updateEntry 5 Scenario.btcOpen Scenario.flat
                    (newWalletPnL 0 1000%float)) = 200%float
  /\ trades (updateEntry 5 Scenario.btcOpen Scenario.flat
               (newWalletPnL 0 1000%float)) = 1%nat.
Proof.
  assert (H1 : plainKeys (positions Scenario.btcOpen)) by (repeat constructor).
  assert (H2 : plainKeys (positions Scenario.flat)) by constructor.
  destruct (close_realizes_unrealized_pnl 5 Scenario.btcOpen Scenario.flat "BTC"
              Scenario.btcLong H1 H2 eq_refl eq_refl)
    as (_ & _ & _ & _ & _ & Honly & _).
  destruct (Honly (newWalletPnL 0 1000%float) eq_refl) as (Hh & Hr & Ht).
  split; [exact H1|]. split; [exact H2|]. split; [reflexivity|].
  split; [reflexivity|]. split; [rewrite Hh; reflexivity|].
  split; [reflexivity|]. split; [rewrite Hr; reflexivity|].
  rewrite Ht. reflexivity.
Defined.

(** C3. For snapshots keyed by market symbols and a symbol held by both
    whose new size is strictly smaller than the old one, [updateWalletPnL]
    pushes exactly one record about that symbol, of type [PartialClose]; its
    size is the size delta and its [pnl] the old [unrealized_pnl] (read
    through [|| 0]) times the size delta divided by the old size.  The entry
    receives it: the record stands, at its place among the records pushed,
    in the history (which is then cut to its last 1000), its [pnl] is added
    to [realizedPnL] there, and it is counted once in [trades]; when it is
    the only record pushed, [realizedPnL] grows by exactly that [pnl] and
    [trades] by one. *)
Theorem partial_close_is_proportional (now : Z) (oldState newState : Snapshot)
    (sym : string) (oldP newP : Position) :
  plainKeys (positions oldState) ->
  plainKeys (positions newState) ->
  obj_get (positions oldState) sym = Some oldP ->
  obj_get (positions newState) sym = Some newP ->
  (position newP <? position oldP)%float = true ->
  let trade := partialCloseTrade now sym oldP newP in
  tradesOf sym (pushedTrades now oldState newState) = [trade]
  /\ t_type trade = PartialClose
  /\ t_size trade = abs (position newP - position oldP)%float
  /\ t_pnl trade
     = (JS.or_num (unrealized_pnl oldP) 0%float
        * (t_size trade / position oldP))%float
  /\ (PrimFloat.is_nan (unrealized_pnl oldP) = false ->
      (JS.or_num (unrealized_pnl oldP) 0 =? unrealized_pnl oldP)%float = true)
  /\ (exists before after,
        pushedTrades now oldState newState = before ++ trade :: after
        /\ tradesOf sym before = [] /\ tradesOf sym after = []
        /\ forall w,
             tradeHistory (updateEntry now oldState newState w)
             = JS.slice_last 1000 (tradeHistory w ++ before ++ trade :: after)
             /\ realizedPnL (updateEntry now oldState newState w)
                = fold_left realize after
                    (fold_left realize before (realizedPnL w) + t_pnl trade)%float
             /\ trades (updateEntry now oldState newState w)
                = (trades w + length (List.filter isClosing before)
                   + 1 + length (List.filter isClosing after))%nat)
  /\ (forall w,
        pushedTrades now oldState newState = [trade] ->
        tradeHistory (updateEntry now oldState newState w)
        = JS.slice_last 1000 (tradeHistory w ++ [trade])
        /\ realizedPnL (updateEntry now oldState newState w)
           = (realizedPnL w + t_pnl trade)%float
        /\ trades (updateEntry now oldState newState w) = S (trades w))
  /\ (forall w,
        let w' := tradeStep now (positions oldState) (positions newState) w sym in
        tradeHistory w' = tradeHistory w ++ [trade]
        /\ realizedPnL w' = (realizedPnL w + t_pnl trade)%float
        /\ trades w' = S (trades w)).
Proof.
  intros _ _ Hold Hnew Hlt trade.
  destruct (ltb_exclusive _ _ Hlt) as [Hneq Hngt].
  assert (Hstep : forall w,
            tradeStep now (positions oldState) (positions newState) w sym
            = realizeTrade w trade).
  { intros w. unfold tradeStep. rewrite Hold, Hnew.
    unfold JS.strict_neq, JS.gt. rewrite Hneq, Hngt. reflexivity. }
  assert (Hone : tradesOf sym (pushedTrades now oldState newState) = [trade]).
  { rewrite pushedTrades_symbol by (eapply allSymbols_old; exact Hold).
    rewrite Hstep. reflexivity. }
  split; [exact Hone|]. split; [reflexivity|]. split; [reflexivity|].
  split; [reflexivity|].
  split; [intros Hnan; apply or_num_zero_eqb; exact Hnan|].
  split; [exact (closing_record_received now oldState newState sym trade Hone eq_refl)|].
  split.
  - intros w Hp.
    destruct (single_record_received now oldState newState trade w Hp)
      as (Hh & Hr & Ht).
    split; [exact Hh|]. split; [exact Hr|]. rewrite Ht. simpl. lia.
  - intros w. rewrite Hstep. simpl. split; [reflexivity|]. split; reflexivity.
Qed.

(** The partial reduce of the specification: 10 units with 100 of unrealized
    P&L reduced to 6 units; the entry has one record more, of size 4 and
    [pnl] exactly 40, 40 more of realized P&L and one trade more. *)
Lemma partial_close_is_proportional_witness :
  plainKeys (positions Scenario.eth10)
  /\ plainKeys (positions Scenario.eth6)
  /\ obj_get (positions Scenario.eth10) "ETH" = Some Scenario.ethLong10
  /\ obj_get (positions Scenario.eth6) "ETH" = Some Scenario.ethLong6
  /\ (position Scenario.ethLong6 <? position Scenario.ethLong10)%float = true
  /\ tradeHistory (updateEntry 5 Scenario.eth10 Scenario.eth6
                     (newWalletPnL 0 1000%float))
     = [partialCloseTrade 5 "ETH" Scenario.ethLong10 Scenario.ethLong6]
  /\ t_size (partialCloseTrade 5 "ETH" Scenario.ethLong10 Scenario.ethLong6)
     = 4%float
  /\ t_pnl (partialCloseTrade 5 "ETH" Scenario.ethLong10 Scenario.ethLong6)
     = 40%float
  /\ realizedPnL (updateEntry 5 Scenario.eth10 Scenario.eth6
                    (newWalletPnL 0 1000%float)) = 40%float
  /\ trades (updateEntry 5 Scenario.eth10 Scenario.eth6
               (newWalletPnL 0 1000%float)) = 1%nat.
Proof.
  assert (H1 : plainKeys (positions Scenario.eth10)) by (repeat constructor).
  assert (H2 : plainKeys (positions Scenario.eth6)) by (repeat constructor).
  destruct (partial_close_is_proportional 5 Scenario.eth10 Scenario.eth6 "ETH"
              Scenario.ethLong10 Scenario.ethLong6 H1 H2 eq_refl eq_refl eq_refl)
    as (_ & _ & _ & _ & _ & _ & Honly & _).
  destruct (Honly (newWalletPnL 0 1000%float) eq_refl) as (Hh & Hr & Ht).
  split; [exact H1|]. split; [exact H2|]. split; [reflexivity|].
  split; [reflexivity|]. split; [reflexivity|].
  split; [rewrite Hh; reflexivity|]. split; [reflexivity|].
  split; [reflexivity|]. split; [rewrite Hr; reflexivity|].
  rewrite Ht. reflexivity.
Defined.

(** ** Opening and increasing a position *)

(** X18.  For snapshots keyed by market symbols and a symbol that only the
    new snapshot holds, [updateWalletPnL] pushes exactly one record about
    it, an [open] record of the position's size with no exit price and a
    [pnl] of 0.  The entry receives it in its history, at its place among
    the records pushed, and takes nothing from it into [realizedPnL] or
    [trades]; when it is the only record pushed, both are as before. *)
Theorem open_records_without_realizing (now : Z) (oldState newState : Snapshot)
    (sym : string) (newP : Position) :
  plainKeys (positions oldState) ->
  plainKeys (positions newState) ->
  obj_get (positions oldState) sym = None ->
  obj_get (positions newState) sym = Some newP ->
  let trade := openTrade now sym newP in
  tradesOf sym (pushedTrades now oldState newState) = [trade]
  /\ t_type trade = Open
  /\ t_size trade = position newP
  /\ t_exitPrice trade = None
  /\ t_pnl trade = 0%float
  /\ (exists before after,
        pushedTrades now oldState newState = before ++ trade :: after
        /\ tradesOf sym before = [] /\ tradesOf sym after = []
        /\ forall w,
             tradeHistory (updateEntry now oldState newState w)
             = JS.slice_last 1000 (tradeHistory w ++ before ++ trade :: after)
             /\ realizedPnL (updateEntry now oldState newState w)
                = fold_left realize after
                    (fold_left realize before (realizedPnL w))
             /\ trades (updateEntry now oldState newState w)
                = (trades w + length (List.filter isClosing before)
                   + length (List.filter isClosing after))%nat)
  /\ (forall w,
        pushedTrades now oldState newState = [trade] ->
        tradeHistory (updateEntry now oldState newState w)
        = JS.slice_last 1000 (tradeHistory w ++ [trade])
        /\ realizedPnL (updateEntry now oldState newState w) = realizedPnL w
        /\ trades (updateEntry now oldState newState w) = trades w).
Proof.
  intros _ _ Hold Hnew trade.
  assert (Hin : In sym (allSymbols (positions oldState) (positions newState))).
  { unfold allSymbols. apply set_of_In, in_or_app. right.
    eapply obj_get_In_keys. exact Hnew. }
  assert (Hone : tradesOf sym (pushedTrades now oldState newState) = [trade]).
  { rewrite (pushedTrades_symbol now oldState newState sym Hin).
    unfold tradeStep. rewrite Hold, Hnew. reflexivity. }
  split; [exact Hone|]. split; [reflexivity|]. split; [reflexivity|].
  split; [reflexivity|]. split; [reflexivity|].
  split; [exact (opening_record_received now oldState newState sym trade Hone eq_refl)|].
  intros w Hp.
  destruct (single_record_received now oldState newState trade w Hp)
    as (Hh & Hr & Ht).
  split; [exact Hh|]. split; [exact Hr|]. rewrite Ht. simpl. lia.
Qed.

Lemma open_records_without_realizing_witness :
  plainKeys (positions Scenario.flat)
  /\ plainKeys (positions Scenario.btcOpen)
  /\ obj_get (positions Scenario.flat) "BTC" = None
  /\ obj_get (positions Scenario.btcOpen) "BTC" = Some Scenario.btcLong
  /\ tradeHistory (updateEntry 5 Scenario.flat Scenario.btcOpen
                     (newWalletPnL 0 1000%float))
     = [openTrade 5 "BTC" Scenario.btcLong]
  /\ realizedPnL (updateEntry 5 Scenario.flat Scenario.btcOpen
                    (newWalletPnL 0 1000%float)) = 0%float
  /\ trades (updateEntry 5 Scenario.flat Scenario.btcOpen
               (newWalletPnL 0 1000%float)) = 0%nat.
Proof.
  assert (H1 : plainKeys (positions Scenario.flat)) by constructor.
  assert (H2 : plainKeys (positions Scenario.btcOpen)) by (repeat constructor).
  destruct (open_records_without_realizing 5 Scenario.flat Scenario.btcOpen "BTC"
              Scenario.btcLong H1 H2 eq_refl eq_refl)
    as (_ & _ & _ & _ & _ & _ & Honly).
  destruct (Honly (newWalletPnL 0 1000%float) eq_refl) as (Hh & Hr & Ht).
  split; [exact H1|]. split; [exact H2|]. split; [reflexivity|].
  split; [reflexivity|]. split; [rewrite Hh; reflexivity|].
  split; [rewrite Hr; reflexivity|]. rewrite Ht. reflexivity.
Defined.

(** X19.  For snapshots keyed by market symbols and a symbol held by both
    whose new size is strictly larger than the old one, [updateWalletPnL]
    pushes exactly one record about it, an [increase] record whose size is
    the size delta, at the new entry price, with a [pnl] of 0.  The entry
    receives it in its history, at its place among the records pushed, and
    takes nothing from it into [realizedPnL] or [trades]; when it is the
    only record pushed, both are as before. *)
Theorem increase_records_the_size_delta (now : Z) (oldState newState : Snapshot)
    (sym : string) (oldP newP : Position) :
  plainKeys (positions oldState) ->
  plainKeys (positions newState) ->
  obj_get (positions oldState) sym = Some oldP ->
  obj_get (positions newState) sym = Some newP ->
  (position oldP <? position newP)%float = true ->
  let trade := increaseTrade now sym oldP newP in
  tradesOf sym (pushedTrades now oldState newState) = [trade]
  /\ t_type trade = Increase
  /\ t_size trade = abs (position newP - position oldP)%float
  /\ t_entryPrice trade = avg_entry_price newP
  /\ t_pnl trade = 0%float
  /\ (exists before after,
        pushedTrades now oldState newState = before ++ trade :: after
        /\ tradesOf sym before = [] /\ tradesOf sym after = []
        /\ forall w,
             tradeHistory (updateEntry now oldState newState w)
             = JS.slice_last 1000 (tradeHistory w ++ before ++ trade :: after)
             /\ realizedPnL (updateEntry now oldState newState w)
                = fold_left realize after
                    (fold_left realize before (realizedPnL w))
             /\ trades (updateEntry now oldState newState w)
                = (trades w + length (List.filter isClosing before)
                   + length (List.filter isClosing after))%nat)
  /\ (forall w,
        pushedTrades now oldState newState = [trade] ->
        tradeHistory (updateEntry now oldState newState w)
        = JS.slice_last 1000 (tradeHistory w ++ [trade])
        /\ realizedPnL (updateEntry now oldState newState w) = realizedPnL w
        /\ trades (updateEntry now oldState newState w) = trades w).
Proof.
  intros _ _ Hold Hnew Hlt trade.
  assert (Hstep : forall w,
            tradeStep now (positions oldState) (positions newState) w sym
            = pushTrade w trade).
  { intros w. unfold tradeStep. rewrite Hold, Hnew, (ltb_neq _ _ Hlt).
    unfold JS.gt. rewrite Hlt. reflexivity. }
  assert (Hone : tradesOf sym (pushedTrades now oldState newState) = [trade]).
  { rewrite pushedTrades_symbol by (eapply allSymbols_old; exact Hold).
    rewrite Hstep. reflexivity. }
  split; [exact Hone|]. split; [reflexivity|]. split; [reflexivity|].
  split; [reflexivity|]. split; [reflexivity|].
  split; [exact (opening_record_received now oldState newState sym trade Hone eq_refl)|].
  intros w Hp.
  destruct (single_record_received now oldState newState trade w Hp)
    as (Hh & Hr & Ht).
  split; [exact Hh|]. split; [exact Hr|]. rewrite Ht. simpl. lia.
Qed.

Lemma increase_records_the_size_delta_witness :
  plainKeys (positions Scenario.eth6)
  /\ plainKeys (positions Scenario.eth10)
  /\ obj_get (positions Scenario.eth6) "ETH" = Some Scenario.ethLong6
  /\ obj_get (positions Scenario.eth10) "ETH" = Some Scenario.ethLong10
  /\ (position Scenario.ethLong6 <? position Scenario.ethLong10)%float = true
  /\ tradeHistory (updateEntry 5 Scenario.eth6 Scenario.eth10
                     (newWalletPnL 0 1000%float))
     = [increaseTrade 5 "ETH" Scenario.ethLong6 Scenario.ethLong10]
  /\ t_size (increaseTrade 5 "ETH" Scenario.ethLong6 Scenario.ethLong10)
     = 4%float
  /\ trades (updateEntry 5 Scenario.eth6 Scenario.eth10
               (newWalletPnL 0 1000%float)) = 0%nat.
Proof.
  assert (H1 : plainKeys (positions Scenario.eth6)) by (repeat constructor).
  assert (H2 : plainKeys (positions Scenario.eth10)) by (repeat constructor).
  destruct (increase_records_the_size_delta 5 Scenario.eth6 Scenario.eth10 "ETH"
              Scenario.ethLong6 Scenario.ethLong10 H1 H2 eq_refl eq_refl eq_refl)
    as (_ & _ & _ & _ & _ & _ & Honly).
  destruct (Honly (newWalletPnL 0 1000%float) eq_refl) as (Hh & _ & Ht).
  split; [exact H1|]. split; [exact H2|]. split; [reflexivity|].
  split; [reflexivity|]. split; [reflexivity|].
  split; [rewrite Hh; reflexivity|]. split; [reflexivity|].
  rewrite Ht. reflexivity.
Defined.

(** ** Which symbols the diff reports *)

Lemma changed_differs (oldP newP : PositionMap) (sym : string) :
  changed oldP newP sym = differs (obj_get oldP sym) (obj_get newP sym).
Proof.
  unfold changed, compareSymbol, differs.
  destruct (obj_get oldP sym) as [o|], (obj_get newP sym) as [n|];
    try reflexivity.
  destruct (_ || _); reflexivity.
Qed.

(** X2.  For snapshots keyed by market symbols, the diff has exactly one
    entry for every symbol that one snapshot holds and the other does not,
    or that both hold with another size or entry price, and no entry for any
    other symbol. *)
Theorem diff_reports_exactly_the_changes (oldState newState : Snapshot) :
  plainKeys (positions oldState) ->
  plainKeys (positions newState) ->
  List.NoDup (map ch_symbol (comparePositions oldState newState))
  /\ forall sym,
       In sym (map ch_symbol (comparePositions oldState newState))
       <-> differs (obj_get (positions oldState) sym)
                   (obj_get (positions newState) sym) = true.
Proof.
  intros _ _. unfold comparePositions. rewrite flat_map_symbols. split.
  - apply List.NoDup_filter, set_of_NoDup.
  - intros sym. rewrite List.filter_In, changed_differs. split; [tauto|].
    intros Hd. split; [|exact Hd]. unfold allSymbols.
    apply set_of_In, in_or_app.
    destruct (obj_get (positions oldState) sym) as [o|] eqn:Ho.
    + left. eapply obj_get_In_keys. exact Ho.
    + destruct (obj_get (positions newState) sym) as [n|] eqn:Hn;
        [|discriminate Hd].
      right. eapply obj_get_In_keys. exact Hn.
Qed.

Lemma diff_reports_exactly_the_changes_witness :
  plainKeys (positions Scenario.btcOpen)
  /\ plainKeys (positions Scenario.ethBtc)
  /\ In "ETH" (map ch_symbol (comparePositions Scenario.btcOpen Scenario.ethBtc))
  /\ ~ In "BTC" (map ch_symbol (comparePositions Scenario.btcOpen Scenario.ethBtc)).
Proof.
  assert (H1 : plainKeys (positions Scenario.btcOpen)) by (repeat constructor).
  assert (H2 : plainKeys (positions Scenario.ethBtc)) by (repeat constructor).
  destruct (diff_reports_exactly_the_changes Scenario.btcOpen Scenario.ethBtc H1 H2)
    as [_ Hiff].
  split; [exact H1|]. split; [exact H2|]. split.
  - apply Hiff. reflexivity.
  - intros Hin. apply Hiff in Hin. discriminate Hin.
Defined.

(** ** Adding a trade event *)

Lemma getWalletEvents_read (address symbol : string)
    (store : gmap string (gmap string (list TradeEvent))) :
  (forall a s,
      eventsOf (snd (getWalletEvents address symbol store)) a s
      = eventsOf store a s)
  /\ (inherited symbol = false ->
      fst (getWalletEvents address symbol store)
      = Some (eventsOf store address symbol))
  /\ (inherited symbol = true ->
      (store !! address ≫= fun wallet => wallet !! symbol) = None ->
      fst (getWalletEvents address symbol store) = None).
Proof.
  unfold getWalletEvents, eventsOf.
  destruct (store !! address) as [wallet|] eqn:Hw; simpl.
  - rewrite Hw. simpl.
    destruct (wallet !! symbol) as [events|] eqn:He; simpl.
    + split; [reflexivity|]. split; [reflexivity|discriminate].
    + destruct (inherited symbol); simpl.
      * split; [reflexivity|]. split; [discriminate|reflexivity].
      * split; [|split; [reflexivity|discriminate]]. intros a s.
        destruct (decide (address = a)) as [<-|Hne].
        -- rewrite lookup_insert_eq, Hw. simpl.
           destruct (decide (symbol = s)) as [<-|Hs].
           ++ rewrite lookup_insert_eq, He. reflexivity.
           ++ rewrite lookup_insert_ne by exact Hs. reflexivity.
        -- rewrite lookup_insert_ne by exact Hne. reflexivity.
  - rewrite lookup_insert_eq. simpl. rewrite lookup_empty.
    assert (Hfresh : forall a s,
              default [] (<[address := ∅]> store !! a
                          ≫= fun wallet : gmap string (list TradeEvent) => wallet !! s)
              = default [] (store !! a ≫= fun wallet => wallet !! s)).
    { intros a s. destruct (decide (address = a)) as [<-|Hne].
      - rewrite lookup_insert_eq, Hw. simpl. rewrite lookup_empty. reflexivity.
      - rewrite lookup_insert_ne by exact Hne. reflexivity. }
    destruct (inherited symbol); simpl.
    + split; [exact Hfresh|]. split; [discriminate|reflexivity].
    + split; [|split; [reflexivity|discriminate]]. intros a s.
      rewrite <- Hfresh.
      destruct (decide (address = a)) as [<-|Hne].
      * rewrite !lookup_insert_eq. simpl.
        destruct (decide (symbol = s)) as [<-|Hs].
        -- rewrite lookup_insert_eq, lookup_empty. reflexivity.
        -- rewrite lookup_insert_ne by exact Hs. reflexivity.
      * rewrite !lookup_insert_ne by exact Hne. reflexivity.
Qed.

(** X12.  For a wallet address that is not a name of [Object.prototype]:
    adding a trade event never changes the list of another wallet or
    symbol.  For a symbol that is no such name either, the event is added
    and the list of the wallet and symbol becomes the old one followed by
    the event, without the events that are 24 h old or more.  For a symbol
    that is such a name the push throws and the list reads as before. *)
Theorem trade_event_stays_in_its_wallet (nowSec : float) (address symbol : string)
    (event : TradeEvent) (store : gmap string (gmap string (list TradeEvent))) :
  inherited address = false ->
  let result := addTradeEvent nowSec address symbol event store in
  (forall a s,
      (a, s) <> (address, symbol) ->
      eventsOf (snd result) a s = eventsOf store a s)
  /\ (inherited symbol = false ->
      fst result = true
      /\ eventsOf (snd result) address symbol
         = List.filter (fresh nowSec) (eventsOf store address symbol ++ [event]))
  /\ (inherited symbol = true ->
      (store !! address ≫= fun wallet => wallet !! symbol) = None ->
      fst result = false
      /\ eventsOf (snd result) address symbol = eventsOf store address symbol).
Proof.
  intros _. unfold addTradeEvent.
  pose proof (getWalletEvents_read address symbol store) as (Hsnd & Hplain & Hmember).
  destruct (getWalletEvents address symbol store) as [[events|] store1];
    simpl in Hsnd, Hplain, Hmember; cbn [fst snd].
  - split; [|split].
    + intros a s Hne. rewrite <- (Hsnd a s). unfold eventsOf.
      destruct (decide (address = a)) as [<-|Ha].
      * rewrite lookup_insert_eq. simpl.
        rewrite lookup_insert_ne by congruence.
        destruct (store1 !! address); reflexivity.
      * rewrite lookup_insert_ne by exact Ha. reflexivity.
    + intros Hs. split; [reflexivity|].
      injection (Hplain Hs) as ->.
      unfold eventsOf at 1. rewrite lookup_insert_eq. simpl.
      rewrite lookup_insert_eq. reflexivity.
    + intros Hs Hnone. discriminate (Hmember Hs Hnone).
  - split; [|split].
    + intros a s _. apply Hsnd.
    + intros Hs. discriminate (Hplain Hs).
    + intros _ _. split; [reflexivity|apply Hsnd].
Qed.

Lemma trade_event_stays_in_its_wallet_witness :
  let e := {| ev_time := 100%float; ev_price := 2000%float; ev_side := buy |} in
  let result := addTradeEvent 101%float "0xA" "ETH" e ∅ in
  inherited "0xA" = false
  /\ inherited "ETH" = false
  /\ ("0xB", "ETH") <> ("0xA", "ETH")
  /\ fst result = true
  /\ eventsOf (snd result) "0xA" "ETH" = [e]
  /\ eventsOf (snd result) "0xB" "ETH" = [].
Proof.
  intros e result.
  assert (Hne : ("0xB", "ETH") <> ("0xA", "ETH")) by discriminate.
  destruct (trade_event_stays_in_its_wallet 101%float "0xA" "ETH" e ∅ eq_refl)
    as (Hother & Hplain & _).
  destruct (Hplain eq_refl) as [Hok Hlist].
  split; [reflexivity|]. split; [reflexivity|]. split; [exact Hne|].
  split; [exact Hok|]. split.
  - unfold result. rewrite Hlist. unfold eventsOf. rewrite lookup_empty.
    reflexivity.
  - unfold result. rewrite (Hother "0xB" "ETH" Hne). unfold eventsOf.
    rewrite lookup_empty. reflexivity.
Defined.
